(** * KeyPath keyboard illustrations: background removal and canvas fitting

    A shallow embedding of [Scripts/extract_keyboards.py] and
    [Scripts/extract_keyboards_v2.py]: background sampling, the edge-seeded
    flood fill, the alpha mask, the crop to content and the fit onto a canvas,
    followed by the properties the specification states about them.

    Conventions.
    - Python integers are [Z]; [//] is [Z.div] (both round towards minus
      infinity); a raised exception is the [Raise] case of [Py.result].
    - Image sizes are [nat] (PIL never holds a negative size); coordinates
      are [Z], because the scripts compute and enqueue coordinates such as
      [-1] before testing them.
    - Python floats are Rocq's primitive binary64 floats wherever the result
      of the script depends on rounding ([fit_to_canvas]); what is proved
      about their rounding rests on the specification of the primitive
      operations in [FloatAxioms].
    - The tolerance of the flood fill is an integer, as at every call site
      of the scripts (12, 25, 30).  For an integer [t], the float test
      [sqrt d2 <= t] on an integer [d2] has the same outcome as
      [0 <= t /\ d2 <= t * t]; the model uses the latter and relates it to
      the real Euclidean distance in [within_tolerance_spec]. *)

From Stdlib Require Import ZArith QArith Qround Qminmax Lia List Bool.
From Stdlib Require PrimFloat FloatOps SpecFloat FloatAxioms Uint63.
From Stdlib Require Import Reals Lra.
From stdpp Require Import base list gmap.

Local Open Scope Z_scope.

(** ** Python values and exceptions *)

Module Py.

Inductive exn := IndexError | ValueError | ZeroDivisionError | OverflowError.

Inductive result (A : Type) : Type :=
| Ok (a : A)
| Raise (e : exn).
Arguments Ok {A} a.
Arguments Raise {A} e.

Definition bind {A B} (r : result A) (k : A -> result B) : result B :=
  match r with
  | Ok a => k a
  | Raise e => Raise e
  end.

(** [[f(x) for x in xs]], stopping at the first exception. *)
Fixpoint for_each {A B} (f : A -> result B) (xs : list A) : result (list B) :=
  match xs with
  | [] => Ok []
  | x :: rest =>
      bind (f x) (fun y => bind (for_each f rest) (fun ys => Ok (y :: ys)))
  end.

(** [range(n)]. *)
Definition range (n : nat) : list Z := map Z.of_nat (seq 0 n).

(** [a // b]. *)
Definition floordiv (a b : Z) : result Z :=
  if b =? 0 then Raise ZeroDivisionError else Ok (a / b).

(** [l[i]] for a non-negative [i]. *)
Definition index {A} (l : list A) (i : Z) : result A :=
  match nth_error l (Z.to_nat i) with
  | Some a => Ok a
  | None => Raise IndexError
  end.

(** [float(z)]: exact below 2^53, which covers every size PIL can hold. *)
Definition float_of_int (z : Z) : PrimFloat.float :=
  if z <? 0
  then PrimFloat.opp (PrimFloat.of_uint63 (Uint63.of_Z (- z)))
  else PrimFloat.of_uint63 (Uint63.of_Z z).

(** [a / b] on integers: true division, correctly rounded. *)
Definition truediv (a b : Z) : result PrimFloat.float :=
  if b =? 0 then Raise ZeroDivisionError
  else Ok (PrimFloat.div (float_of_int a) (float_of_int b)).

(** [n * f] for an integer [n] and a float [f]. *)
Definition int_times_float (n : Z) (f : PrimFloat.float) : PrimFloat.float :=
  PrimFloat.mul (float_of_int n) f.

(** [min(a, b)]: the second argument only when it is strictly smaller. *)
Definition min2 (a b : PrimFloat.float) : PrimFloat.float :=
  if PrimFloat.ltb b a then b else a.

(** [int(f)]: truncation towards zero. *)
Definition int_of_float (f : PrimFloat.float) : result Z :=
  match FloatOps.Prim2SF f with
  | SpecFloat.S754_zero _ => Ok 0
  | SpecFloat.S754_finite s m e =>
      let magnitude :=
        if 0 <=? e then Z.pos m * 2 ^ e else Z.shiftr (Z.pos m) (- e) in
      Ok (if s then - magnitude else magnitude)
  | SpecFloat.S754_infinity _ => Raise OverflowError
  | SpecFloat.S754_nan => Raise ValueError
  end.

End Py.

Import Py.

(** ** The part of PIL the scripts use

    PIL is not part of the repository; what follows is its documented
    behaviour on the calls the scripts make. *)

Module PIL.

(** A pixel as the tuple PIL hands out: three bands for mode RGB, four
    for RGBA. *)
Inductive pixel :=
| RGB (r g b : Z)
| RGBA (r g b a : Z).

(** A background colour: a 3-tuple. *)
Definition color : Type := Z * Z * Z.

(** [p[:3]]. *)
Definition bands3 (p : pixel) : color :=
  match p with
  | RGB r g b => (r, g, b)
  | RGBA r g b _ => (r, g, b)
  end.

Definition red (p : pixel) : Z := fst (fst (bands3 p)).
Definition green (p : pixel) : Z := snd (fst (bands3 p)).
Definition blue (p : pixel) : Z := snd (bands3 p).

(** The alpha band, when the pixel has one. *)
Definition alpha_band (p : pixel) : option Z :=
  match p with
  | RGB _ _ _ => None
  | RGBA _ _ _ a => Some a
  end.

(** Rows of samples, row [y] first, column [x] inside the row. *)
Abbreviation grid A := (list (list A)).

Definition grid_get {A} (d : A) (g : grid A) (x y : Z) : A :=
  nth (Z.to_nat x) (nth (Z.to_nat y) g []) d.

(** [g[y][x] = v] at a position inside the grid. *)
Definition grid_set {A} (g : grid A) (x y : Z) (v : A) : grid A :=
  alter (fun row => <[Z.to_nat x := v]> row) (Z.to_nat y) g.

Definition grid_fill {A} (w h : nat) (v : A) : grid A :=
  repeat (repeat v w) h.

Record image (P : Type) : Type :=
  Image { width : nat; height : nat; data : grid P }.
Arguments Image {P} width height data.
Arguments width {P} i.
Arguments height {P} i.
Arguments data {P} i.

Definition xsize {P} (img : image P) : Z := Z.of_nat (width img).
Definition ysize {P} (img : image P) : Z := Z.of_nat (height img).

Definition inside {P} (img : image P) (x y : Z) : bool :=
  (0 <=? x) && (x <? xsize img) && (0 <=? y) && (y <? ysize img).

Definition transparent_black : pixel := RGBA 0 0 0 0.

(** The sample at a position inside the image. *)
Definition load (img : image pixel) (x y : Z) : pixel :=
  grid_get transparent_black (data img) x y.

(** [img.load()[x, y]] and [img.getpixel((x, y))]: a negative coordinate
    counts from the far edge; a position outside raises [IndexError]. *)
Definition getpixel (img : image pixel) (x y : Z) : result pixel :=
  let x := if x <? 0 then xsize img + x else x in
  let y := if y <? 0 then ysize img + y else y in
  if inside img x y then Ok (load img x y) else Raise IndexError.

(** [Image.new('L', (w, h), v)]. *)
Definition new_L (w h : nat) (v : Z) : image Z :=
  Image w h (grid_fill w h v).

(** What [getbbox] counts as content: a non-zero alpha band when there
    is one, any non-zero band otherwise. *)
Definition has_content (p : pixel) : bool :=
  match p with
  | RGBA _ _ _ a => negb (a =? 0)
  | RGB r g b => negb ((r =? 0) && (g =? 0) && (b =? 0))
  end.

Definition content_columns (img : image pixel) : list Z :=
  List.filter
    (fun x => existsb (fun y => has_content (load img x y)) (range (height img)))
    (range (width img)).

Definition content_rows (img : image pixel) : list Z :=
  List.filter
    (fun y => existsb (fun x => has_content (load img x y)) (range (width img)))
    (range (height img)).

(** [img.getbbox()]: (left, upper, right, lower), right and lower
    exclusive, or [None] when the image has no content. *)
Definition getbbox (img : image pixel) : option (Z * Z * Z * Z) :=
  match content_columns img, content_rows img with
  | x0 :: xs, y0 :: ys => Some (x0, y0, List.last xs x0 + 1, List.last ys y0 + 1)
  | _, _ => None
  end.

(** The all-zero sample of an image's mode, read off its first pixel. *)
Definition zero_of (img : image pixel) : pixel :=
  match load img 0 0 with
  | RGB _ _ _ => RGB 0 0 0
  | RGBA _ _ _ _ => transparent_black
  end.

(** [img.crop((left, upper, right, lower))]: a right edge left of the
    left one (or a lower edge above the upper one) raises [ValueError];
    samples outside the source are zero. *)
Definition crop (img : image pixel) (box : Z * Z * Z * Z) : result (image pixel) :=
  let '(x0, y0, x1, y1) := box in
  if (x1 <? x0) || (y1 <? y0) then Raise ValueError
  else
    let w := Z.to_nat (x1 - x0) in
    let h := Z.to_nat (y1 - y0) in
    Ok (Image w h
          (map (fun j =>
                  map (fun i =>
                         if inside img (x0 + i) (y0 + j)
                         then load img (x0 + i) (y0 + j)
                         else zero_of img)
                      (range w))
               (range h))).

End PIL.

Import PIL.

(** ** What the two scripts share: the colour test *)

(** The sum of squares under the square root of [color_distance]. *)
Definition sq_distance (c1 c2 : color) : Z :=
  let '(r1, g1, b1) := c1 in
  let '(r2, g2, b2) := c2 in
  (r1 - r2) ^ 2 + (g1 - g2) ^ 2 + (b1 - b2) ^ 2.

(** [color_distance(c1, c2)], the Euclidean distance, as a real number. *)
Definition color_distance (c1 c2 : color) : R :=
  sqrt (IZR (sq_distance c1 c2)).

(** [color_distance(c1, c2) <= tolerance] for an integer tolerance. *)
Definition within_tolerance (c1 c2 : color) (tolerance : Z) : bool :=
  (0 <=? tolerance) && (sq_distance c1 c2 <=? tolerance * tolerance).

(** The eight offsets both scripts list, in their order. *)
Definition neighbors : list (Z * Z) :=
  [(-1, -1); (-1, 0); (-1, 1); (0, -1); (0, 1); (1, -1); (1, 0); (1, 1)].

Definition offsets_from (x y : Z) : list (Z * Z) :=
  map (fun d => (x + fst d, y + snd d)) neighbors.

(** The seeds of the fill, in the order of the two [for] loops. *)
Definition edge_pixels (w h : nat) : list (Z * Z) :=
  flat_map (fun x => [(x, 0); (x, Z.of_nat h - 1)]) (range w)
  ++ flat_map (fun y => [(0, y); (Z.of_nat w - 1, y)]) (range h).

(** What [fit_to_canvas] fixes: the canvas, the size the content is
    resampled to, and where it is pasted.  The resampled samples come out of
    PIL's LANCZOS filter and are not modelled. *)
Record placement : Type :=
  Placement { canvas_size : Z * Z; resized_size : Z * Z; paste_at : Z * Z }.

(** ** Scripts/extract_keyboards.py *)

Module ExtractKeyboards.

Definition TARGET_WIDTH : Z := 400.
Definition TARGET_HEIGHT : Z := 140.

Definition get_background_color (img : image pixel) : result color :=
  let width := xsize img in
  let height := ysize img in
  bind (getpixel img 5 5) (fun c1 =>
  bind (getpixel img (width - 6) 5) (fun c2 =>
  bind (getpixel img 5 (height - 6)) (fun c3 =>
  bind (getpixel img (width - 6) (height - 6)) (fun c4 =>
  let corners := [c1; c2; c3; c4] in
  let r := fold_right Z.add 0 (map red corners) / 4 in
  let g := fold_right Z.add 0 (map green corners) / 4 in
  let b := fold_right Z.add 0 (map blue corners) / 4 in
  Ok (r, g, b))))).

(** The variables of the [while] loop. *)
Record fill_state : Type :=
  FillState { alpha : grid Z; visited : grid bool; queue : list (Z * Z) }.

(** One turn of [while queue:]; [None] when the queue is empty. *)
Definition visit (img : image pixel) (bg_color : color) (tolerance : Z)
    (st : fill_state) : option fill_state :=
  match queue st with
  | [] => None
  | (x, y) :: rest =>
      let width := xsize img in
      let height := ysize img in
      if (x <? 0) || (x >=? width) || (y <? 0) || (y >=? height)
      then Some (FillState (alpha st) (visited st) rest)
      else if grid_get false (visited st) x y
      then Some (FillState (alpha st) (visited st) rest)
      else
        let visited' := grid_set (visited st) x y true in
        let pixel := load img x y in
        if within_tolerance (bands3 pixel) bg_color tolerance
        then
          let alpha' := grid_set (alpha st) x y 0 in
          let added :=
            List.filter
              (fun n =>
                 (0 <=? fst n) && (fst n <? width) && (0 <=? snd n)
                 && (snd n <? height)
                 && negb (grid_get false visited' (fst n) (snd n)))
              (offsets_from x y) in
          Some (FillState alpha' visited' (rest ++ added))
        else Some (FillState (alpha st) visited' rest)
  end.

(** The loop, cut off after [fuel] turns. *)
Fixpoint drain (fuel : nat) (img : image pixel) (bg_color : color)
    (tolerance : Z) (st : fill_state) : option fill_state :=
  match visit img bg_color tolerance st with
  | None => Some st
  | Some st' =>
      match fuel with
      | O => None
      | S fuel' => drain fuel' img bg_color tolerance st'
      end
  end.

Definition start (img : image pixel) : fill_state :=
  FillState (grid_fill (width img) (height img) 255)
            (grid_fill (width img) (height img) false)
            (edge_pixels (width img) (height img)).

(** Turns that always suffice: eight per pixel and one per seed. *)
Definition turns (img : image pixel) : nat :=
  (8 * (width img * height img) + length (edge_pixels (width img) (height img)))%nat.

Definition flood_fill_background (img : image pixel) (bg_color : color)
    (tolerance : Z) : option (grid Z) :=
  option_map alpha (drain (turns img) img bg_color tolerance (start img)).

Definition apply_alpha_mask (img : image pixel) (alpha : grid Z)
    : result (image pixel) :=
  bind (for_each
          (fun y =>
             for_each
               (fun x =>
                  let '(r, g, b) := bands3 (load img x y) in
                  bind (index alpha y) (fun row =>
                  bind (index row x) (fun a => Ok (RGBA r g b a))))
               (range (width img)))
          (range (height img)))
       (fun rows => Ok (Image (width img) (height img) rows)).

Definition crop_to_content (img : image pixel) (padding : Z)
    : result (image pixel) :=
  match getbbox img with
  | None => Ok img
  | Some (b0, b1, b2, b3) =>
      let left := Z.max 0 (b0 - padding) in
      let top := Z.max 0 (b1 - padding) in
      let right := Z.min (xsize img) (b2 + padding) in
      let bottom := Z.min (ysize img) (b3 + padding) in
      crop img (left, top, right, bottom)
  end.

Definition fit_to_canvas (img : image pixel) (target_width target_height : Z)
    (padding : Z) : result placement :=
  let available_width := target_width - padding * 2 in
  let available_height := target_height - padding * 2 in
  bind (truediv available_width (xsize img)) (fun scale_w =>
  bind (truediv available_height (ysize img)) (fun scale_h =>
  let scale := min2 scale_w scale_h in
  bind (int_of_float (int_times_float (xsize img) scale)) (fun new_width =>
  bind (int_of_float (int_times_float (ysize img) scale)) (fun new_height =>
  (* resize: PIL refuses a size below 1 *)
  if (new_width <? 1) || (new_height <? 1) then Raise ValueError
  (* Image.new: PIL refuses a negative size *)
  else if (target_width <? 0) || (target_height <? 0) then Raise ValueError
  else
    let x := (target_width - new_width) / 2 in
    let y := (target_height - new_height) / 2 in
    Ok (Placement (target_width, target_height) (new_width, new_height) (x, y)))))).

Definition extract_keyboard_with_transparency (img : image pixel)
    (bg_color : color) (tolerance : Z) : option (result (image pixel)) :=
  option_map
    (fun alpha => bind (apply_alpha_mask img alpha) (fun result => crop_to_content result 2))
    (flood_fill_background img bg_color tolerance).

End ExtractKeyboards.

(** ** Scripts/extract_keyboards_v2.py *)

Module ExtractKeyboardsV2.

Definition TARGET_WIDTH : Z := 400.
Definition TARGET_HEIGHT : Z := 140.

Definition get_background_color (img : image pixel) : result color :=
  let w := xsize img in
  let h := ysize img in
  bind (getpixel img 5 5) (fun c1 =>
  bind (getpixel img (w - 5) 5) (fun c2 =>
  bind (getpixel img 5 (h - 5)) (fun c3 =>
  bind (getpixel img (w - 5) (h - 5)) (fun c4 =>
  let corners := [c1; c2; c3; c4] in
  let r := fold_right Z.add 0 (map red corners) / 4 in
  let g := fold_right Z.add 0 (map green corners) / 4 in
  let b := fold_right Z.add 0 (map blue corners) / 4 in
  Ok (r, g, b))))).

(** The variables of the [while] loop: the mask is an image of mode L,
    the visited coordinates a hashed set. *)
Record fill_state : Type :=
  FillState { alpha : image Z; visited : gset (Z * Z); queue : list (Z * Z) }.

(** [alpha_pixels[x, y] = v] at a position inside the image. *)
Definition putpixel (img : image Z) (x y : Z) (v : Z) : image Z :=
  Image (width img) (height img) (grid_set (data img) x y v).

(** One turn of [while queue:]; [None] when the queue is empty. *)
Definition visit (img : image pixel) (bg_color : color) (tolerance : Z)
    (st : fill_state) : option fill_state :=
  match queue st with
  | [] => None
  | (x, y) :: rest =>
      let w := xsize img in
      let h := ysize img in
      if bool_decide ((x, y) ∈ visited st)
      then Some (FillState (alpha st) (visited st) rest)
      else if (x <? 0) || (x >=? w) || (y <? 0) || (y >=? h)
      then Some (FillState (alpha st) (visited st) rest)
      else
        let visited' := {[ (x, y) ]} ∪ visited st in
        let pixel := load img x y in
        if within_tolerance (bands3 pixel) bg_color tolerance
        then
          let alpha' := putpixel (alpha st) x y 0 in
          let added :=
            List.filter (fun n => negb (bool_decide (n ∈ visited')))
                        (offsets_from x y) in
          Some (FillState alpha' visited' (rest ++ added))
        else Some (FillState (alpha st) visited' rest)
  end.

(** The loop, cut off after [fuel] turns. *)
Fixpoint drain (fuel : nat) (img : image pixel) (bg_color : color)
    (tolerance : Z) (st : fill_state) : option fill_state :=
  match visit img bg_color tolerance st with
  | None => Some st
  | Some st' =>
      match fuel with
      | O => None
      | S fuel' => drain fuel' img bg_color tolerance st'
      end
  end.

Definition start (img : image pixel) : fill_state :=
  FillState (new_L (width img) (height img) 255) ∅
            (edge_pixels (width img) (height img)).

Definition turns (img : image pixel) : nat :=
  (8 * (width img * height img) + length (edge_pixels (width img) (height img)))%nat.

Definition flood_fill_background (img : image pixel) (bg_color : color)
    (tolerance : Z) : option (image Z) :=
  option_map alpha (drain (turns img) img bg_color tolerance (start img)).

(** [img.convert('RGB')] when the mode is not RGB, then [putalpha]:
    the mask must have the size of the image. *)
Definition apply_alpha_mask (img : image pixel) (alpha : image Z)
    : result (image pixel) :=
  if (width alpha =? width img)%nat && (height alpha =? height img)%nat
  then
    Ok (Image (width img) (height img)
          (map (fun y =>
                  map (fun x =>
                         let '(r, g, b) := bands3 (load img x y) in
                         RGBA r g b (grid_get 0 (data alpha) x y))
                      (range (width img)))
               (range (height img))))
  else Raise ValueError.

Definition crop_to_content (img : image pixel) (padding : Z)
    : result (image pixel) :=
  match getbbox img with
  | Some (b0, b1, b2, b3) =>
      let left := Z.max 0 (b0 - padding) in
      let top := Z.max 0 (b1 - padding) in
      let right := Z.min (xsize img) (b2 + padding) in
      let bottom := Z.min (ysize img) (b3 + padding) in
      crop img (left, top, right, bottom)
  | None => Ok img
  end.

Definition fit_to_canvas (img : image pixel) (target_width target_height : Z)
    (padding : Z) : result placement :=
  let avail_w := target_width - 2 * padding in
  let avail_h := target_height - 2 * padding in
  let w := xsize img in
  let h := ysize img in
  bind (truediv avail_w w) (fun scale_w =>
  bind (truediv avail_h h) (fun scale_h =>
  let scale := min2 scale_w scale_h in
  bind (int_of_float (int_times_float w scale)) (fun new_w =>
  bind (int_of_float (int_times_float h scale)) (fun new_h =>
  if (new_w <? 1) || (new_h <? 1) then Raise ValueError
  else if (target_width <? 0) || (target_height <? 0) then Raise ValueError
  else
    let x := (target_width - new_w) / 2 in
    let y := (target_height - new_h) / 2 in
    Ok (Placement (target_width, target_height) (new_w, new_h) (x, y)))))).

(** [extract_keyboard] up to the value it returns; the name and the
    output directory only feed the file that is written. *)
Definition extract_keyboard (contact_sheet : image pixel) (row col rows cols : Z)
    (margins : Z * Z * Z * Z) (tolerance : Z) : option (result placement) :=
  let '(m_top, m_right, m_bottom, m_left) := margins in
  let cell :=
    bind (floordiv (xsize contact_sheet) cols) (fun cell_w =>
    bind (floordiv (ysize contact_sheet) rows) (fun cell_h =>
    let left := col * cell_w in
    let top := row * cell_h in
    let right := left + cell_w in
    let bottom := top + cell_h in
    crop contact_sheet (left + m_left, top + m_top, right - m_right, bottom - m_bottom))) in
  match cell with
  | Raise e => Some (Raise e)
  | Ok cell =>
      match get_background_color cell with
      | Raise e => Some (Raise e)
      | Ok bg_color =>
          option_map
            (fun alpha =>
               bind (apply_alpha_mask cell alpha) (fun rgba =>
               bind (crop_to_content rgba 2) (fun cropped =>
               fit_to_canvas cropped TARGET_WIDTH TARGET_HEIGHT 6)))
            (flood_fill_background cell bg_color tolerance)
      end
  end.

End ExtractKeyboardsV2.

Module V1 := ExtractKeyboards.
Module V2 := ExtractKeyboardsV2.

(** ** Vocabulary of the properties *)

(** A coordinate of the region. *)
Definition in_region (img : image pixel) (p : Z * Z) : Prop :=
  0 <= fst p < xsize img /\ 0 <= snd p < ysize img.

(** Row 0, the last row, column 0 or the last column. *)
Definition on_border (img : image pixel) (p : Z * Z) : Prop :=
  in_region img p /\
  (snd p = 0 \/ snd p = ysize img - 1 \/ fst p = 0 \/ fst p = xsize img - 1).

(** The colour of the pixel is within the tolerance of the background. *)
Definition is_background (img : image pixel) (bg_color : color) (tolerance : Z)
    (p : Z * Z) : Prop :=
  within_tolerance (bands3 (load img (fst p) (snd p))) bg_color tolerance = true.

(** Two distinct pixels that touch by a side or by a corner. *)
Definition adjacent (p q : Z * Z) : Prop :=
  Z.abs (fst q - fst p) <= 1 /\ Z.abs (snd q - snd p) <= 1 /\ p <> q.

(** Each pixel of the list touches the next one. *)
Fixpoint linked (p : Z * Z) (rest : list (Z * Z)) : Prop :=
  match rest with
  | [] => True
  | q :: rest' => adjacent p q /\ linked q rest'
  end.

(** An 8-connected path of background pixels from a border pixel to [p]. *)
Definition joins_border (img : image pixel) (bg_color : color) (tolerance : Z)
    (p : Z * Z) : Prop :=
  exists (b : Z * Z) (rest : list (Z * Z)),
    on_border img b /\
    List.last rest b = p /\
    linked b rest /\
    Forall (fun q => in_region img q /\ is_background img bg_color tolerance q)
           (b :: rest).

(** The same set, grown one pixel at a time. *)
Inductive flooded (img : image pixel) (bg_color : color) (tolerance : Z)
    : Z * Z -> Prop :=
| flooded_border p :
    on_border img p -> is_background img bg_color tolerance p ->
    flooded img bg_color tolerance p
| flooded_next p q :
    flooded img bg_color tolerance p -> adjacent p q -> in_region img q ->
    is_background img bg_color tolerance q ->
    flooded img bg_color tolerance q.

(** A grid of [h] rows of [w] samples. *)
Definition shaped {A} (w h : nat) (g : grid A) : Prop :=
  length g = h /\ Forall (fun row => length row = w) g.

(** Every sample of a mask is 0 or 255. *)
Definition two_valued (g : grid Z) : Prop :=
  Forall (Forall (fun a => a = 0 \/ a = 255)) g.

(** Pixels the fill has not visited yet. *)
Definition unvisited (g : grid bool) : nat :=
  fold_right Nat.add 0%nat (map (fun row => length (List.filter negb row)) g).

(** What is left to do: bounds the turns the loop still takes. *)
Definition work_left (pending : grid bool) (q : list (Z * Z)) : nat :=
  (8 * unvisited pending + length q)%nat.

(** The state after [n] turns of the loop (or at its end, if sooner). *)
Fixpoint after_turns (n : nat) (img : image pixel) (bg_color : color)
    (tolerance : Z) (st : V1.fill_state) : V1.fill_state :=
  match n with
  | O => st
  | S n' =>
      match V1.visit img bg_color tolerance st with
      | None => st
      | Some st' => after_turns n' img bg_color tolerance st'
      end
  end.

Fixpoint after_turns_v2 (n : nat) (img : image pixel) (bg_color : color)
    (tolerance : Z) (st : V2.fill_state) : V2.fill_state :=
  match n with
  | O => st
  | S n' =>
      match V2.visit img bg_color tolerance st with
      | None => st
      | Some st' => after_turns_v2 n' img bg_color tolerance st'
      end
  end.

(** What the loop of [extract_keyboards.py] maintains. *)
Record fill_inv (img : image pixel) (bg_color : color) (tolerance : Z)
    (st : V1.fill_state) : Prop :=
  FillInv {
    inv_alpha_shape : shaped (width img) (height img) (V1.alpha st);
    inv_visited_shape : shaped (width img) (height img) (V1.visited st);
    inv_alpha :
      forall p, in_region img p ->
        grid_get 255 (V1.alpha st) (fst p) (snd p) =
        if grid_get false (V1.visited st) (fst p) (snd p)
           && within_tolerance (bands3 (load img (fst p) (snd p))) bg_color tolerance
        then 0 else 255;
    inv_visited :
      forall p, in_region img p ->
        grid_get false (V1.visited st) (fst p) (snd p) = true ->
        is_background img bg_color tolerance p ->
        flooded img bg_color tolerance p;
    inv_queue :
      forall q, In q (V1.queue st) -> in_region img q ->
        is_background img bg_color tolerance q ->
        flooded img bg_color tolerance q;
    inv_border :
      forall p, on_border img p ->
        grid_get false (V1.visited st) (fst p) (snd p) = true \/ In p (V1.queue st);
    inv_closed :
      forall p q, in_region img p ->
        grid_get false (V1.visited st) (fst p) (snd p) = true ->
        is_background img bg_color tolerance p ->
        adjacent p q -> in_region img q ->
        grid_get false (V1.visited st) (fst q) (snd q) = true \/ In q (V1.queue st)
  }.

(** The test [0 <= x < w and 0 <= y < h] on a coordinate. *)
Definition in_region_b (img : image pixel) (p : Z * Z) : bool :=
  (0 <=? fst p) && (fst p <? xsize img) && (0 <=? snd p) && (snd p <? ysize img).

(** How a state of the second script mirrors one of the first: same mask,
    same visited pixels, and the same queue once the coordinates outside
    the region are left out (the second script also enqueues neighbours
    that lie outside). *)
Record mirrors (img : image pixel) (st1 : V1.fill_state) (st2 : V2.fill_state)
    : Prop :=
  Mirrors {
    mir_width : width (V2.alpha st2) = width img;
    mir_height : height (V2.alpha st2) = height img;
    mir_alpha : data (V2.alpha st2) = V1.alpha st1;
    mir_visited :
      forall p, p ∈ V2.visited st2 <->
        in_region img p /\ grid_get false (V1.visited st1) (fst p) (snd p) = true;
    mir_queue :
      List.filter (in_region_b img) (V2.queue st2) =
      List.filter (in_region_b img) (V1.queue st1)
  }.

(** What the loop of [extract_keyboards_v2.py] maintains about its mask. *)
Definition mask_sound (img : image pixel) (bg_color : color) (tolerance : Z)
    (st : V2.fill_state) : Prop :=
  shaped (width img) (height img) (data (V2.alpha st)) /\
  forall x y, 0 <= x < xsize img -> 0 <= y < ysize img ->
    grid_get 255 (data (V2.alpha st)) x y = 0 ->
    within_tolerance (bands3 (load img x y)) bg_color tolerance = true.

(** ** The exact counterpart of the scaling in [fit_to_canvas] *)

(** [min(aw / w, ah / h)] over the rationals. *)
Definition exact_scale (w h aw ah : Z) : Q :=
  Qmin (inject_Z aw / inject_Z w) (inject_Z ah / inject_Z h).

(** [(floor (w * s), floor (h * s))] for the exact scale [s]. *)
Definition exact_size (w h aw ah : Z) : Z * Z :=
  (Qfloor (inject_Z w * exact_scale w h aw ah),
   Qfloor (inject_Z h * exact_scale w h aw ah)).

(** The two products as the scripts compute them, in binary64. *)
Definition float_size (w h aw ah : Z) : result Z * result Z :=
  let scale :=
    min2 (PrimFloat.div (float_of_int aw) (float_of_int w))
         (PrimFloat.div (float_of_int ah) (float_of_int h)) in
  (int_of_float (int_times_float w scale), int_of_float (int_times_float h scale)).

(** Sizes PIL can hold; [float_of_int] is exact on them. *)
Definition pil_sizes (img : image pixel) (target_width target_height : Z) : Prop :=
  xsize img < 2 ^ 31 /\ ysize img < 2 ^ 31 /\
  target_width < 2 ^ 31 /\ target_height < 2 ^ 31.

(** The pasted rectangle lies on the canvas, so [paste] clips nothing. *)
Definition pasted_whole (pl : placement) : Prop :=
  0 <= fst (paste_at pl) /\
  fst (paste_at pl) + fst (resized_size pl) <= fst (canvas_size pl) /\
  0 <= snd (paste_at pl) /\
  snd (paste_at pl) + snd (resized_size pl) <= snd (canvas_size pl).

(** Sizes below [2 ^ 25].  On them the rounding error of a product is less
    than the gap between the exact product and the next integer, so the
    truncation cannot exceed the exact floor. *)
Definition moderate_sizes (img : image pixel) (target_width target_height : Z) : Prop :=
  xsize img < 2 ^ 25 /\ ysize img < 2 ^ 25 /\
  target_width < 2 ^ 25 /\ target_height < 2 ^ 25.

(** ** The real value of a binary64 number *)

Definition SF2R (f : SpecFloat.spec_float) : R :=
  match f with
  | SpecFloat.S754_finite s m e =>
      ((if s then - IZR (Z.pos m) else IZR (Z.pos m)) * powerRZ 2 e)%R
  | _ => 0%R
  end.

Definition B2R (f : PrimFloat.float) : R := SF2R (FloatOps.Prim2SF f).

(** A positive float with a full mantissa of 53 bits and an exponent within
    [k] of 0. *)
Definition normal (k : Z) (f : PrimFloat.float) : Prop :=
  exists m e,
    FloatOps.Prim2SF f = SpecFloat.S754_finite false m e /\
    Z.pos (SpecFloat.digits2_pos m) = 53 /\ - k <= e <= k.

(** [2 ^ -52], one unit in the last place of a number in [[1, 2)]. *)
Definition ulp_bound : R := (/ 4503599627370496)%R.

(** [v] is [x] up to a relative error of [ulp_bound]. *)
Definition near (v x : R) : Prop :=
  (x * (1 - ulp_bound) <= v <= x * (1 + ulp_bound))%R.


(** ** Images of the scenarios *)

Definition white : pixel := RGB 255 255 255.
Definition black : pixel := RGB 0 0 0.
Definition white_bg : color := (255, 255, 255).
Definition near_white : color := (250, 250, 250).

(** 100x100, white, with a black square on columns and rows 30..69. *)
Definition in_square (x y : Z) : bool :=
  (30 <=? x) && (x <? 70) && (30 <=? y) && (y <? 70).

Definition square_sheet : image pixel :=
  Image 100 100
    (map (fun y => map (fun x => if in_square x y then black else white) (range 100))
         (range 100)).

Definition square_mask : grid Z :=
  map (fun y => map (fun x => if in_square x y then 255 else 0) (range 100))
      (range 100).

(** [square_sheet] with its mask as alpha band. *)
Definition square_masked : image pixel :=
  Image 100 100
    (map (fun y =>
            map (fun x => if in_square x y then RGBA 0 0 0 255 else RGBA 255 255 255 0)
                (range 100))
         (range 100)).

(** What is left of [square_sheet] after the fill and the crop: the black
    square, opaque, inside a transparent white margin of 2 pixels. *)
Definition square_cropped : image pixel :=
  Image 44 44
    (map (fun y =>
            map (fun x =>
                   if (2 <=? x) && (x <? 42) && (2 <=? y) && (y <? 42)
                   then RGBA 0 0 0 255 else RGBA 255 255 255 0)
                (range 44))
         (range 44)).

(** 3x3, white, with one pixel of colour (250, 250, 250) in the middle. *)
Definition near_white_dot : image pixel :=
  Image 3 3
    [[white; white; white]; [white; RGB 250 250 250; white]; [white; white; white]].

(** 1x1: one pixel at distance exactly 5 from white. *)
Definition edge_dot : image pixel := Image 1 1 [[RGB 250 255 255]].

(** 5x5: a white pixel enclosed by a black ring on a white ground. *)
Definition ringed_hole : image pixel :=
  Image 5 5
    [[white; white; white; white; white];
     [white; black; black; black; white];
     [white; black; white; black; white];
     [white; black; black; black; white];
     [white; white; white; white; white]].

(** 1x1, half transparent. *)
Definition half_clear : image pixel := Image 1 1 [[RGBA 10 20 30 128]].

(** 1x1, opaque. *)
Definition opaque_dot : image pixel := Image 1 1 [[RGBA 1 2 3 255]].

(** 2x2, fully transparent. *)
Definition all_clear : image pixel :=
  Image 2 2 [[RGBA 9 9 9 0; RGBA 0 0 0 0]; [RGBA 1 2 3 0; RGBA 255 255 255 0]].

(** 10x10 of one colour. *)
Definition flat_tile (p : pixel) : image pixel := Image 10 10 (grid_fill 10 10 p).

(** 1x1000 and 7x1, opaque. *)
Definition thin_strip : image pixel := Image 1 1000 (grid_fill 1 1000 (RGBA 0 0 0 255)).
Definition short_bar : image pixel := Image 7 1 (grid_fill 7 1 (RGBA 0 0 0 255)).


(** Closes a bound on a coordinate of a concrete image. *)
Ltac in_bounds := unfold xsize, ysize; simpl; lia.

(** * Proofs *)

(** * Grids *)

Section Grids.
Context {A : Type}.
Implicit Types (g : grid A) (d v : A).

Lemma shaped_fill (w h : nat) v : shaped w h (grid_fill w h v).
Proof.
  unfold shaped, grid_fill. split.
  - apply repeat_length.
  - apply List.Forall_forall. intros row Hrow.
    apply repeat_spec in Hrow. subst row. apply repeat_length.
Qed.

Lemma grid_get_fill d (w h : nat) v x y :
  0 <= x < Z.of_nat w -> 0 <= y < Z.of_nat h ->
  grid_get d (grid_fill w h v) x y = v.
Proof.
  intros Hx Hy. unfold grid_get, grid_fill.
  rewrite (nth_indep _ [] (repeat v w)) by (rewrite repeat_length; lia).
  rewrite nth_repeat.
  rewrite (nth_indep _ d v) by (rewrite repeat_length; lia).
  apply nth_repeat.
Qed.

Lemma shaped_set (w h : nat) g x y v :
  shaped w h g -> shaped w h (grid_set g x y v).
Proof.
  intros [Hlen Hrows]. unfold grid_set. split.
  - rewrite length_alter. exact Hlen.
  - apply Forall_alter; [exact Hrows|].
    intros row _ Hrow. rewrite length_insert. exact Hrow.
Qed.

Lemma shaped_lookup (w h : nat) g x y :
  shaped w h g -> 0 <= x < Z.of_nat w -> 0 <= y < Z.of_nat h ->
  exists row a, g !! Z.to_nat y = Some row /\ length row = w /\
                row !! Z.to_nat x = Some a.
Proof.
  intros [Hlen Hrows] Hx Hy.
  destruct (lookup_lt_is_Some_2 g (Z.to_nat y)) as [row Hrow]; [lia|].
  assert (Hw : length row = w).
  { rewrite Forall_forall in Hrows. apply Hrows.
    apply list_elem_of_lookup. eauto. }
  destruct (lookup_lt_is_Some_2 row (Z.to_nat x)) as [a Ha]; [lia|].
  eauto.
Qed.

Lemma grid_get_lookup d g x y row a :
  g !! Z.to_nat y = Some row -> row !! Z.to_nat x = Some a ->
  grid_get d g x y = a.
Proof.
  intros Hrow Ha. unfold grid_get.
  rewrite (nth_lookup_Some _ _ _ _ Hrow). apply (nth_lookup_Some _ _ _ _ Ha).
Qed.

Lemma grid_get_set_eq d (w h : nat) g x y v :
  shaped w h g -> 0 <= x < Z.of_nat w -> 0 <= y < Z.of_nat h ->
  grid_get d (grid_set g x y v) x y = v.
Proof.
  intros Hs Hx Hy.
  destruct (shaped_lookup w h g x y Hs Hx Hy) as (row & a & Hrow & Hw & Ha).
  apply (grid_get_lookup d _ x y (<[Z.to_nat x := v]> row)).
  - unfold grid_set. rewrite list_lookup_alter_eq, Hrow. reflexivity.
  - apply list_lookup_insert_eq. lia.
Qed.

Lemma grid_get_set_ne d g x y v x' y' :
  0 <= x -> 0 <= y -> 0 <= x' -> 0 <= y' -> (x, y) <> (x', y') ->
  grid_get d (grid_set g x y v) x' y' = grid_get d g x' y'.
Proof.
  intros Hx Hy Hx' Hy' Hne. unfold grid_get, grid_set.
  destruct (decide (y = y')) as [->|Hyy].
  - assert (Hxx : Z.to_nat x <> Z.to_nat x') by (intros E; apply Hne; f_equal; lia).
    rewrite !(nth_lookup _ _ []), list_lookup_alter_eq.
    destruct (g !! Z.to_nat y') as [row|]; simpl; [|reflexivity].
    rewrite !(nth_lookup _ _ d), list_lookup_insert_ne by exact Hxx. reflexivity.
  - rewrite !(nth_lookup _ _ []), list_lookup_alter_ne by lia. reflexivity.
Qed.

End Grids.

(** * Counting the unvisited *)

Lemma unvisited_fill (w h : nat) : unvisited (grid_fill w h false) = (h * w)%nat.
Proof.
  unfold unvisited, grid_fill.
  assert (Hrow : length (List.filter negb (repeat false w)) = w).
  { induction w as [|w IH]; simpl; [reflexivity|]. now rewrite IH. }
  induction h as [|h IH]; simpl; [reflexivity|]. rewrite IH, Hrow. reflexivity.
Qed.

Lemma filter_negb_insert (row : list bool) (i : nat) :
  row !! i = Some false ->
  S (length (List.filter negb (<[i := true]> row))) = length (List.filter negb row).
Proof.
  revert i. induction row as [|b row IH]; intros [|i] H; simpl in *; try discriminate.
  - injection H as ->. reflexivity.
  - destruct b; simpl; rewrite <- (IH i H); reflexivity.
Qed.

Lemma unvisited_set (g : grid bool) (x y : Z) row :
  g !! Z.to_nat y = Some row -> row !! Z.to_nat x = Some false ->
  S (unvisited (grid_set g x y true)) = unvisited g.
Proof.
  unfold unvisited, grid_set. generalize (Z.to_nat y) as j.
  induction g as [|r g IH]; intros [|j] Hrow Hx; simpl in *; try discriminate.
  - injection Hrow as ->. rewrite <- (filter_negb_insert _ _ Hx). reflexivity.
  - pose proof (IH j Hrow Hx) as E. unfold alter in E. lia.
Qed.

Lemma grid_get_set {A} (d : A) (w h : nat) (g : grid A) x y v x' y' :
  shaped w h g -> 0 <= x < Z.of_nat w -> 0 <= y < Z.of_nat h ->
  0 <= x' -> 0 <= y' ->
  grid_get d (grid_set g x y v) x' y' =
  if decide ((x', y') = (x, y)) then v else grid_get d g x' y'.
Proof.
  intros Hs Hx Hy Hx' Hy'. destruct (decide ((x', y') = (x, y))) as [E|E].
  - injection E as -> ->. eapply grid_get_set_eq; eauto.
  - apply grid_get_set_ne; try lia. congruence.
Qed.

(** * Ranges, seeds and neighbours *)

Lemma in_range (n : nat) (x : Z) : In x (range n) <-> 0 <= x < Z.of_nat n.
Proof.
  unfold range. rewrite in_map_iff. split.
  - intros (k & <- & Hk). apply in_seq in Hk. lia.
  - intros Hx. exists (Z.to_nat x). split; [lia|]. apply in_seq. lia.
Qed.

Lemma in_edge_pixels (img : image pixel) (p : Z * Z) :
  on_border img p <-> In p (edge_pixels (width img) (height img)) /\ in_region img p.
Proof.
  unfold on_border, in_region, edge_pixels, xsize, ysize.
  rewrite in_app_iff, !in_flat_map. destruct p as [x y]. simpl. split.
  - intros [Hin Hedge]. split; [|exact Hin].
    destruct Hedge as [E|[E|[E|E]]]; subst.
    + left. exists x. rewrite in_range. intuition lia.
    + left. exists x. rewrite in_range. intuition lia.
    + right. exists y. rewrite in_range. intuition lia.
    + right. exists y. rewrite in_range. intuition lia.
  - intros [Hseed Hin]. split; [exact Hin|].
    destruct Hseed as [(x' & _ & [E|[E|[]]])|(y' & _ & [E|[E|[]]])];
      injection E as <- <-; lia.
Qed.

Lemma in_offsets (x y : Z) (q : Z * Z) :
  In q (offsets_from x y) <-> adjacent (x, y) q.
Proof.
  unfold offsets_from, adjacent, neighbors. destruct q as [qx qy]. simpl. split.
  - intros H.
    repeat (destruct H as [H|H]; [injection H as <- <-; repeat split; try lia; intros E; injection E; lia|]).
    destruct H.
  - intros (Hx & Hy & Hne).
    assert (Hqx : qx = x + -1 \/ qx = x + 0 \/ qx = x + 1) by lia.
    assert (Hqy : qy = y + -1 \/ qy = y + 0 \/ qy = y + 1) by lia.
    destruct Hqx as [-> | [-> | ->]], Hqy as [-> | [-> | ->]]; auto 10.
    exfalso. apply Hne. f_equal; lia.
Qed.

Lemma length_offsets (x y : Z) : length (offsets_from x y) = 8%nat.
Proof. reflexivity. Qed.

Lemma in_region_b_spec (img : image pixel) (p : Z * Z) :
  in_region_b img p = true <-> in_region img p.
Proof. unfold in_region_b, in_region. rewrite !andb_true_iff. lia. Qed.

(** * The loop of extract_keyboards.py *)

Section FloodFill.
Variables (img : image pixel) (bg_color : color) (tolerance : Z).

Abbreviation inv := (fill_inv img bg_color tolerance).
Abbreviation step := (V1.visit img bg_color tolerance).
Abbreviation background := (is_background img bg_color tolerance).
Abbreviation reached := (flooded img bg_color tolerance).

Lemma visit_None (st : V1.fill_state) : step st = None <-> V1.queue st = [].
Proof.
  unfold V1.visit. destruct (V1.queue st) as [|[x y] rest]; [tauto|].
  split; [|discriminate].
  repeat match goal with |- context [if ?c then _ else _] => destruct c end;
    discriminate.
Qed.

Lemma start_inv : inv (V1.start img).
Proof.
  unfold V1.start. constructor; simpl.
  - apply shaped_fill.
  - apply shaped_fill.
  - intros [x y] [Hx Hy]. simpl in *. unfold xsize, ysize in *.
    rewrite !grid_get_fill by lia. reflexivity.
  - intros [x y] [Hx Hy]. simpl in *. unfold xsize, ysize in *.
    rewrite grid_get_fill by lia. discriminate.
  - intros q Hq Hin Hbg. apply flooded_border; [|exact Hbg].
    apply in_edge_pixels. auto.
  - intros p Hp. right. apply in_edge_pixels in Hp. tauto.
  - intros [x y] q [Hx Hy]. simpl in *. unfold xsize, ysize in *.
    rewrite grid_get_fill by lia. discriminate.
Qed.

Lemma start_work :
  work_left (V1.visited (V1.start img)) (V1.queue (V1.start img)) = V1.turns img.
Proof.
  unfold work_left, V1.turns, V1.start. cbn [V1.visited V1.queue].
  rewrite unvisited_fill, (Nat.mul_comm (height img)). reflexivity.
Qed.

Lemma visit_inv (st st' : V1.fill_state) :
  inv st -> step st = Some st' -> inv st'.
Proof.
  intros [Hsa Hsv Ha Hv Hq Hb Hc]. unfold V1.visit.
  destruct (V1.queue st) as [|[x y] rest] eqn:Equeue; [discriminate|].
  set (added := List.filter _ (offsets_from x y)).
  assert (Hadded : forall q, In q added <->
            adjacent (x, y) q /\ in_region img q /\
            grid_get false (grid_set (V1.visited st) x y true) (fst q) (snd q) = false).
  { intros q. unfold added. rewrite filter_In, in_offsets, !andb_true_iff, negb_true_iff.
    unfold in_region. intuition lia. }
  clearbody added.
  destruct ((x <? 0) || (x >=? xsize img) || (y <? 0) || (y >=? ysize img)) eqn:Eout.
  { (* a coordinate outside the region *)
    intros [= <-]. 
    assert (Hout : ~ in_region img (x, y)).
    { unfold in_region. simpl. rewrite !orb_true_iff in Eout. lia. }
    constructor; cbn [V1.alpha V1.visited V1.queue]; auto.
    - intros q Hin. apply Hq. now right.
    - intros p Hp. destruct (Hb p Hp) as [?|[<-|?]]; auto.
      destruct Hp as [Hp _]. contradiction.
    - intros p q Hp Hvp Hbp Hadj Hq'.
      destruct (Hc p q Hp Hvp Hbp Hadj Hq') as [?|[<-|?]]; auto; contradiction. }
  assert (Hin : in_region img (x, y)).
  { unfold in_region. simpl. rewrite !orb_false_iff in Eout. lia. }
  destruct Hin as [Hx Hy]. simpl in Hx, Hy. unfold xsize, ysize in Hx, Hy.
  destruct (grid_get false (V1.visited st) x y) eqn:Evis.
  { (* already visited *)
    intros [= <-]. constructor; cbn [V1.alpha V1.visited V1.queue]; auto.
    - intros q Hin. apply Hq. now right.
    - intros p Hp. destruct (Hb p Hp) as [?|[<-|?]]; auto.
    - intros p q Hp Hvp Hbp Hadj Hq'.
      destruct (Hc p q Hp Hvp Hbp Hadj Hq') as [?|[<-|?]]; auto. }
  assert (Hset : forall p, in_region img p ->
            grid_get false (grid_set (V1.visited st) x y true) (fst p) (snd p) =
            if decide (p = (x, y)) then true
            else grid_get false (V1.visited st) (fst p) (snd p)).
  { intros [px py] [Hpx Hpy]. simpl in *.
    rewrite (grid_get_set false _ _ _ _ _ _ _ _ Hsv) by lia. reflexivity. }
  assert (Hmono : forall p, in_region img p ->
            grid_get false (V1.visited st) (fst p) (snd p) = true ->
            grid_get false (grid_set (V1.visited st) x y true) (fst p) (snd p) = true).
  { intros p Hp Hvp. rewrite Hset by exact Hp. destruct (decide _); auto. }
  assert (Hhead : grid_get false (grid_set (V1.visited st) x y true) x y = true).
  { pose proof (Hset (x, y)) as E. simpl in E.
    rewrite E by (unfold in_region, xsize, ysize; simpl; lia).
    destruct (decide _); congruence. }
  destruct (within_tolerance (bands3 (load img x y)) bg_color tolerance) eqn:Ebg.
  - (* a background pixel: cleared, and its neighbours enqueued *)
    intros [= <-].
    assert (Hreach : reached (x, y)).
    { apply Hq; [now left| |exact Ebg].
      unfold in_region, xsize, ysize. simpl. lia. }
    constructor; cbn [V1.alpha V1.visited V1.queue].
    + now apply shaped_set.
    + now apply shaped_set.
    + intros [px py] Hp. rewrite (Hset _ Hp). destruct Hp as [Hpx Hpy]. simpl in *.
      rewrite (grid_get_set 255 _ _ _ _ _ _ _ _ Hsa) by lia.
      destruct (decide _) as [[= -> ->]|Hne].
      * rewrite Ebg. reflexivity.
      * apply (Ha (px, py)). split; assumption.
    + intros p Hp. rewrite (Hset _ Hp).
      destruct (decide _) as [->|Hne]; auto.
    + intros q Hin Hq' Hbq.
      destruct (proj1 (in_app_iff _ _ _) Hin) as [Hold|Hnew].
      * apply Hq; auto. now right.
      * apply Hadded in Hnew. destruct Hnew as [Hoff _].
        eapply flooded_next; eauto.
    + intros p Hp. destruct (Hb p Hp) as [Hvp|[<-|Hrest]].
      * left. apply Hmono; [apply Hp|exact Hvp].
      * left. exact Hhead.
      * right. apply in_app_iff. now left.
    + intros p q Hp Hvp Hbp Hadj Hq'. rewrite (Hset _ Hp) in Hvp.
      destruct (decide (p = (x, y))) as [->|Hne].
      * destruct (grid_get false (grid_set (V1.visited st) x y true) (fst q) (snd q)) eqn:Evq;
          [now left|right].
        apply in_app_iff. right. apply Hadded. auto.
      * destruct (Hc p q Hp Hvp Hbp Hadj Hq') as [Hvq|[<-|Hrest]].
        -- left. now apply Hmono.
        -- left. exact Hhead.
        -- right. apply in_app_iff. now left.
  - (* a foreground pixel: visited, nothing else *)
    intros [= <-]. constructor; cbn [V1.alpha V1.visited V1.queue].
    + exact Hsa.
    + now apply shaped_set.
    + intros p Hp. rewrite (Hset _ Hp), (Ha _ Hp).
      destruct (decide _) as [->|Hne]; [|reflexivity].
      simpl. rewrite Evis, Ebg. reflexivity.
    + intros p Hp. rewrite (Hset _ Hp).
      destruct (decide _) as [->|Hne]; auto.
      intros _ Hbp. unfold is_background in Hbp. simpl in Hbp. congruence.
    + intros q Hin. apply Hq. now right.
    + intros p Hp. destruct (Hb p Hp) as [Hvp|[<-|Hrest]].
      * left. apply Hmono; [apply Hp|exact Hvp].
      * left. exact Hhead.
      * now right.
    + intros p q Hp Hvp Hbp Hadj Hq'. rewrite (Hset _ Hp) in Hvp.
      destruct (decide (p = (x, y))) as [->|Hne].
      * unfold is_background in Hbp. simpl in Hbp. congruence.
      * destruct (Hc p q Hp Hvp Hbp Hadj Hq') as [Hvq|[<-|Hrest]].
        -- left. now apply Hmono.
        -- left. exact Hhead.
        -- now right.
Qed.

Lemma visit_work (st st' : V1.fill_state) :
  inv st -> step st = Some st' ->
  (work_left (V1.visited st') (V1.queue st') <
   work_left (V1.visited st) (V1.queue st))%nat.
Proof.
  intros Hinv. destruct Hinv as [_ Hsv _ _ _ _ _]. unfold V1.visit, work_left.
  destruct (V1.queue st) as [|[x y] rest] eqn:Equeue; [discriminate|].
  set (added := List.filter _ (offsets_from x y)).
  assert (Hlen : (length added <= 8)%nat).
  { unfold added. rewrite <- (length_offsets x y). apply List.filter_length_le. }
  clearbody added.
  destruct ((x <? 0) || (x >=? xsize img) || (y <? 0) || (y >=? ysize img)) eqn:Eout.
  { intros [= <-]. simpl. lia. }
  destruct (grid_get false (V1.visited st) x y) eqn:Evis.
  { intros [= <-]. simpl. lia. }
  rewrite !orb_false_iff in Eout. unfold xsize, ysize in Eout.
  destruct (shaped_lookup _ _ _ x y Hsv) as (row & a & Hrow & _ & Ha); [lia|lia|].
  rewrite (grid_get_lookup false _ _ _ _ _ Hrow Ha) in Evis. subst a.
  pose proof (unvisited_set _ _ _ _ Hrow Ha) as Hcount.
  destruct (within_tolerance _ _ _); intros [= <-];
    cbn [V1.visited V1.queue]; rewrite ?length_app; simpl length; lia.
Qed.

(** The loop ends within the turns it is given, and its invariant holds
    at the end. *)
Lemma drain_ends (fuel : nat) (st : V1.fill_state) :
  inv st -> (work_left (V1.visited st) (V1.queue st) <= fuel)%nat ->
  exists st', V1.drain fuel img bg_color tolerance st = Some st' /\
              inv st' /\ V1.queue st' = [].
Proof.
  revert st. induction fuel as [|fuel IH]; intros st Hinv Hwork; simpl.
  - destruct (step st) as [st'|] eqn:Estep.
    + pose proof (visit_work _ _ Hinv Estep). lia.
    + exists st. rewrite visit_None in Estep. auto.
  - destruct (step st) as [st'|] eqn:Estep.
    + apply IH; [eapply visit_inv; eauto|].
      pose proof (visit_work _ _ Hinv Estep). lia.
    + exists st. rewrite visit_None in Estep. auto.
Qed.

Lemma after_turns_inv (n : nat) (st : V1.fill_state) :
  inv st -> inv (after_turns n img bg_color tolerance st).
Proof.
  revert st. induction n as [|n IH]; intros st Hinv; simpl; [exact Hinv|].
  destruct (step st) as [st'|] eqn:Estep; [|exact Hinv].
  apply IH. eapply visit_inv; eauto.
Qed.

(** Once the queue is empty, every flooded pixel has been visited. *)
Lemma flooded_visited (st : V1.fill_state) (p : Z * Z) :
  inv st -> V1.queue st = [] -> reached p ->
  in_region img p /\
  grid_get false (V1.visited st) (fst p) (snd p) = true /\ background p.
Proof.
  intros Hinv Hempty Hp. induction Hp as [p Hb Hbg|p q Hp IH Hadj Hq Hbg].
  - destruct (inv_border _ _ _ _ Hinv p Hb) as [Hv|Hin].
    + destruct Hb as [Hb _]. auto.
    + rewrite Hempty in Hin. destruct Hin.
  - destruct IH as (Hpin & Hpv & Hpb).
    destruct (inv_closed _ _ _ _ Hinv p q Hpin Hpv Hpb Hadj Hq) as [Hv|Hin].
    + auto.
    + rewrite Hempty in Hin. destruct Hin.
Qed.

Lemma cleared_iff_flooded (st : V1.fill_state) (p : Z * Z) :
  inv st -> V1.queue st = [] -> in_region img p ->
  (grid_get 255 (V1.alpha st) (fst p) (snd p) = 0 <-> reached p) /\
  (~ reached p -> grid_get 255 (V1.alpha st) (fst p) (snd p) = 255).
Proof.
  intros Hinv Hempty Hp.
  pose proof (inv_alpha _ _ _ _ Hinv p Hp) as Ha.
  assert (Hback : reached p -> grid_get 255 (V1.alpha st) (fst p) (snd p) = 0).
  { intros Hr. destruct (flooded_visited st p Hinv Hempty Hr) as (_ & Hv & Hb).
    unfold is_background in Hb. rewrite Ha, Hv, Hb. reflexivity. }
  destruct (grid_get false (V1.visited st) (fst p) (snd p)) eqn:Ev;
    destruct (within_tolerance _ _ _) eqn:Eb; simpl in Ha.
  - assert (Hr : reached p) by (apply (inv_visited _ _ _ _ Hinv p Hp Ev Eb)).
    split; [tauto|]. intros Hn. contradiction.
  - split; [|auto]. split; [rewrite Ha; discriminate|exact Hback].
  - split; [|auto]. split; [rewrite Ha; discriminate|exact Hback].
  - split; [|auto]. split; [rewrite Ha; discriminate|exact Hback].
Qed.

Lemma visit_two_valued (st st' : V1.fill_state) :
  two_valued (V1.alpha st) -> step st = Some st' -> two_valued (V1.alpha st').
Proof.
  intros Htv. unfold V1.visit.
  destruct (V1.queue st) as [|[x y] rest]; [discriminate|].
  repeat match goal with
         | |- context [if ?c then _ else _] => destruct c
         end; intros [= <-]; cbn [V1.alpha]; try exact Htv.
  unfold two_valued, grid_set. apply Forall_alter; [exact Htv|].
  intros row _ Hrow. apply Forall_insert; auto.
Qed.

Lemma drain_two_valued (fuel : nat) (st st' : V1.fill_state) :
  two_valued (V1.alpha st) ->
  V1.drain fuel img bg_color tolerance st = Some st' ->
  two_valued (V1.alpha st').
Proof.
  revert st. induction fuel as [|fuel IH]; intros st Htv; simpl;
    destruct (step st) as [st1|] eqn:Estep; try discriminate.
  - intros [= <-]. exact Htv.
  - apply IH. eapply visit_two_valued; eauto.
  - intros [= <-]. exact Htv.
Qed.

End FloodFill.

(** * The loop of extract_keyboards_v2.py, against the first one *)

Lemma filter_filter {A} (f g : A -> bool) (l : list A) :
  List.filter f (List.filter g l) = List.filter (fun a => g a && f a) l.
Proof.
  induction l as [|a l IH]; simpl; [reflexivity|].
  destruct (g a); simpl; [destruct (f a)|]; now rewrite IH.
Qed.

Lemma outside_test (img : image pixel) (x y : Z) :
  (x <? 0) || (x >=? xsize img) || (y <? 0) || (y >=? ysize img) =
  negb (in_region_b img (x, y)).
Proof.
  unfold in_region_b. cbn [fst snd]. rewrite !Z.geb_leb.
  destruct (Z.ltb_spec x 0), (Z.leb_spec (xsize img) x), (Z.ltb_spec y 0),
    (Z.leb_spec (ysize img) y), (Z.leb_spec 0 x), (Z.ltb_spec x (xsize img)),
    (Z.leb_spec 0 y), (Z.ltb_spec y (ysize img)); simpl; try reflexivity; lia.
Qed.

Section Mirror.
Variables (img : image pixel) (bg_color : color) (tolerance : Z).

Abbreviation inv := (fill_inv img bg_color tolerance).

Lemma start_mirrors : mirrors img (V1.start img) (V2.start img).
Proof.
  constructor; try reflexivity.
  intros [x y]. cbn [V2.visited V2.start V1.visited V1.start]. split.
  - intros Hin. apply not_elem_of_empty in Hin. destruct Hin.
  - intros [[Hx Hy] Hv]. simpl in *. unfold xsize, ysize in *.
    rewrite grid_get_fill in Hv by lia. discriminate.
Qed.

Lemma visit_outside (st : V1.fill_state) p rest :
  V1.queue st = p :: rest -> in_region_b img p = false ->
  V1.visit img bg_color tolerance st =
  Some (V1.FillState (V1.alpha st) (V1.visited st) rest).
Proof.
  intros Hq Hout. unfold V1.visit. rewrite Hq. destruct p as [x y].
  rewrite outside_test, Hout. reflexivity.
Qed.

Lemma visit_outside_v2 (st1 : V1.fill_state) (st2 : V2.fill_state) p rest :
  mirrors img st1 st2 ->
  V2.queue st2 = p :: rest -> in_region_b img p = false ->
  V2.visit img bg_color tolerance st2 =
  Some (V2.FillState (V2.alpha st2) (V2.visited st2) rest).
Proof.
  intros Hm Hq Hout. unfold V2.visit. rewrite Hq. destruct p as [x y].
  rewrite outside_test, Hout. simpl. destruct (bool_decide _); reflexivity.
Qed.

(** A coordinate of the region at the head of both queues: both loops
    take the same turn. *)
Lemma visit_together (st1 : V1.fill_state) (st2 : V2.fill_state) p r1 r2 :
  inv st1 -> mirrors img st1 st2 ->
  V1.queue st1 = p :: r1 -> V2.queue st2 = p :: r2 ->
  in_region_b img p = true ->
  exists st1' st2',
    V1.visit img bg_color tolerance st1 = Some st1' /\
    V2.visit img bg_color tolerance st2 = Some st2' /\
    mirrors img st1' st2' /\
    (work_left (V1.visited st1') (V2.queue st2') <
     work_left (V1.visited st1) (V2.queue st2))%nat.
Proof.
  intros Hinv [Hmw Hmh Hma Hmv Hmq] Hq1 Hq2 Hin.
  pose proof (inv_visited_shape _ _ _ _ Hinv) as Hsv.
  rewrite Hq1, Hq2 in Hmq. simpl in Hmq. rewrite Hin in Hmq.
  injection Hmq as Hmq.
  destruct p as [x y].
  assert (Hreg : in_region img (x, y)) by now apply in_region_b_spec.
  destruct Hreg as [Hx Hy]. simpl in Hx, Hy. unfold xsize, ysize in Hx, Hy.
  unfold V1.visit, V2.visit, work_left. rewrite Hq1, Hq2, outside_test, Hin.
  cbn [negb].
  destruct (grid_get false (V1.visited st1) x y) eqn:Evis.
  { (* visited before *)
    rewrite bool_decide_eq_true_2
      by (apply Hmv; split; [apply in_region_b_spec; exact Hin|exact Evis]).
    eexists. eexists. split; [reflexivity|]. split; [reflexivity|].
    split; [constructor; auto|simpl; lia]. }
  rewrite bool_decide_eq_false_2
    by (intros Hv; apply Hmv in Hv; simpl in Hv; destruct Hv; congruence).
  set (visited1 := grid_set (V1.visited st1) x y true).
  set (visited2 := {[(x, y)]} ∪ V2.visited st2).
  assert (Hset : forall q, in_region img q ->
            grid_get false visited1 (fst q) (snd q) =
            if decide (q = (x, y)) then true
            else grid_get false (V1.visited st1) (fst q) (snd q)).
  { intros [qx qy] [Hqx Hqy]. simpl in *. unfold visited1.
    rewrite (grid_get_set false _ _ _ _ _ _ _ _ Hsv) by lia. reflexivity. }
  assert (Hvis : forall q, q ∈ visited2 <->
            in_region img q /\ grid_get false visited1 (fst q) (snd q) = true).
  { intros q. unfold visited2. rewrite elem_of_union, elem_of_singleton, Hmv. split.
    - intros [->|[Hq Hv]].
      + split; [apply in_region_b_spec; exact Hin|].
        rewrite Hset by (apply in_region_b_spec; exact Hin).
        destruct (decide _); congruence.
      + split; [exact Hq|]. rewrite (Hset _ Hq). destruct (decide _); auto.
    - intros [Hq Hv]. rewrite (Hset _ Hq) in Hv.
      destruct (decide (q = (x, y))); auto. }
  set (added1 := List.filter _ (offsets_from x y)).
  set (added2 := List.filter _ (offsets_from x y)).
  assert (Hadded : List.filter (in_region_b img) added2 = added1).
  { unfold added1, added2. rewrite filter_filter. apply filter_ext.
    intros q. destruct (in_region_b img q) eqn:Eq.
    - assert (Hq : in_region img q) by now apply in_region_b_spec.
      unfold in_region_b in Eq. rewrite Eq. simpl.
      rewrite andb_true_r. f_equal. specialize (Hvis q).
      destruct (grid_get false visited1 (fst q) (snd q)).
      + apply bool_decide_eq_true_2. tauto.
      + apply bool_decide_eq_false_2. intros Hq2'. apply Hvis in Hq2'.
        destruct Hq2'. discriminate.
    - unfold in_region_b in Eq. rewrite Eq. simpl. apply andb_false_r. }
  assert (Hlen : (length added2 <= 8)%nat).
  { unfold added2. rewrite <- (length_offsets x y). apply List.filter_length_le. }
  clearbody added1 added2 visited2.
  destruct (shaped_lookup _ _ _ x y Hsv) as (row & a & Hrow & _ & Ha); [lia|lia|].
  rewrite (grid_get_lookup false _ _ _ _ _ Hrow Ha) in Evis. subst a.
  pose proof (unvisited_set _ _ _ _ Hrow Ha) as Hcount. fold visited1 in Hcount.
  clearbody visited1.
  destruct (within_tolerance _ _ _).
  - eexists. eexists. split; [reflexivity|]. split; [reflexivity|]. split.
    + constructor; cbn [V1.alpha V1.visited V1.queue V2.alpha V2.visited V2.queue];
        auto.
      * unfold V2.putpixel. cbn [data]. now rewrite Hma.
      * rewrite !List.filter_app, Hmq, Hadded. f_equal.
        rewrite <- Hadded. rewrite filter_filter. apply filter_ext.
        intros q. now rewrite andb_diag.
    + cbn [V1.visited V2.queue]. rewrite length_app. simpl length. lia.
  - eexists. eexists. split; [reflexivity|]. split; [reflexivity|]. split.
    + constructor; cbn [V1.alpha V1.visited V1.queue V2.alpha V2.visited V2.queue];
        auto.
    + cbn [V1.visited V2.queue]. simpl length. lia.
Qed.

Lemma visit_None_v2 (st : V2.fill_state) :
  V2.visit img bg_color tolerance st = None <-> V2.queue st = [].
Proof.
  unfold V2.visit. destruct (V2.queue st) as [|[x y] rest]; [tauto|].
  split; [|discriminate].
  repeat match goal with |- context [if ?c then _ else _] => destruct c end;
    discriminate.
Qed.

(** Both loops end, in states that mirror each other. *)
Lemma drains_agree (n : nat) :
  forall (st1 : V1.fill_state) (st2 : V2.fill_state) (fuel1 fuel2 : nat),
    inv st1 -> mirrors img st1 st2 ->
    (work_left (V1.visited st1) (V1.queue st1) +
     work_left (V1.visited st1) (V2.queue st2) <= n)%nat ->
    (work_left (V1.visited st1) (V1.queue st1) <= fuel1)%nat ->
    (work_left (V1.visited st1) (V2.queue st2) <= fuel2)%nat ->
    exists st1' st2',
      V1.drain fuel1 img bg_color tolerance st1 = Some st1' /\
      V2.drain fuel2 img bg_color tolerance st2 = Some st2' /\
      mirrors img st1' st2'.
Proof.
  induction n as [|n IH]; intros st1 st2 fuel1 fuel2 Hinv Hm Hn H1 H2.
  - (* nothing left: both queues are empty *)
    unfold work_left in Hn.
    assert (E1 : V1.queue st1 = [])
      by (destruct (V1.queue st1); simpl in Hn; [reflexivity|lia]).
    assert (E2 : V2.queue st2 = [])
      by (destruct (V2.queue st2); simpl in Hn; [reflexivity|lia]).
    exists st1, st2.
    apply (visit_None img bg_color tolerance) in E1. apply visit_None_v2 in E2.
    destruct fuel1, fuel2; simpl; rewrite ?E1, ?E2; auto.
  - pose proof (mir_queue _ _ _ Hm) as Hq.
    destruct (V2.queue st2) as [|p2 r2] eqn:Eq2;
      destruct (V1.queue st1) as [|p1 r1] eqn:Eq1.
    + exists st1, st2.
      apply (visit_None img bg_color tolerance) in Eq1. apply visit_None_v2 in Eq2.
      destruct fuel1, fuel2; simpl; rewrite ?Eq1, ?Eq2; auto.
    + (* the first loop skips a coordinate outside the region *)
      assert (Hout : in_region_b img p1 = false).
      { simpl in Hq. destruct (in_region_b img p1); [discriminate|reflexivity]. }
      pose proof (visit_outside _ _ _ Eq1 Hout) as Hstep.
      pose proof (visit_inv _ _ _ _ _ Hinv Hstep) as Hinv'.
      destruct fuel1 as [|fuel1]; [unfold work_left in H1; simpl in H1; lia|].
      simpl V1.drain. rewrite Hstep.
      apply IH; cbn [V1.visited V1.queue]; auto.
      * destruct Hm as [Hmw Hmh Hma Hmv Hmq]. constructor; auto. cbn [V1.queue].
        rewrite Hmq, Eq1. simpl. now rewrite Hout.
      * rewrite Eq2. unfold work_left in *. simpl length in *. lia.
      * unfold work_left in *. simpl length in *. lia.
      * rewrite Eq2. unfold work_left in *. simpl length in *. lia.
    + (* the second loop skips a coordinate outside the region *)
      assert (Hout : in_region_b img p2 = false).
      { simpl in Hq. destruct (in_region_b img p2); [discriminate|reflexivity]. }
      pose proof (visit_outside_v2 st1 st2 _ _ Hm Eq2 Hout) as Hstep.
      destruct fuel2 as [|fuel2]; [unfold work_left in H2; simpl in H2; lia|].
      simpl V2.drain. rewrite Hstep.
      apply IH; cbn [V2.queue]; auto.
      * destruct Hm as [Hmw Hmh Hma Hmv Hmq]. constructor; auto. cbn [V2.queue].
        rewrite <- Hmq, Eq2. simpl. now rewrite Hout.
      * rewrite Eq1. unfold work_left in *. simpl length in *. lia.
      * rewrite Eq1. unfold work_left in *. simpl length in *. lia.
      * unfold work_left in *. simpl length in *. lia.
    + destruct (in_region_b img p2) eqn:Ein2; [destruct (in_region_b img p1) eqn:Ein1|].
      * (* the same coordinate of the region heads both queues *)
        assert (p1 = p2) by (simpl in Hq; rewrite Ein1, Ein2 in Hq; congruence).
        subst p1.
        destruct (visit_together st1 st2 p2 r1 r2 Hinv Hm Eq1 Eq2 Ein2)
          as (st1' & st2' & Hs1 & Hs2 & Hm' & Hless2).
        pose proof (visit_work _ _ _ _ _ Hinv Hs1) as Hless1.
        pose proof (visit_inv _ _ _ _ _ Hinv Hs1) as Hinv'.
        rewrite Eq1 in Hless1. rewrite Eq2 in Hless2.
        destruct fuel1 as [|fuel1]; [lia|]. destruct fuel2 as [|fuel2]; [lia|].
        simpl. rewrite Hs1, Hs2. apply IH; auto; lia.
      * (* the first loop skips a coordinate outside the region *)
        pose proof (visit_outside _ _ _ Eq1 Ein1) as Hstep.
        pose proof (visit_inv _ _ _ _ _ Hinv Hstep) as Hinv'.
        destruct fuel1 as [|fuel1]; [unfold work_left in H1; simpl in H1; lia|].
        simpl V1.drain. rewrite Hstep.
        apply IH; cbn [V1.visited V1.queue]; auto.
        -- destruct Hm as [Hmw Hmh Hma Hmv Hmq]. constructor; auto. cbn [V1.queue].
           rewrite Hmq, Eq1. simpl. now rewrite Ein1.
        -- rewrite Eq2. unfold work_left in *. simpl length in *. lia.
        -- unfold work_left in *. simpl length in *. lia.
        -- rewrite Eq2. unfold work_left in *. simpl length in *. lia.
      * (* the second loop skips a coordinate outside the region *)
        pose proof (visit_outside_v2 st1 st2 _ _ Hm Eq2 Ein2) as Hstep.
        destruct fuel2 as [|fuel2]; [unfold work_left in H2; simpl in H2; lia|].
        simpl V2.drain. rewrite Hstep.
        apply IH; cbn [V2.queue]; auto.
        -- destruct Hm as [Hmw Hmh Hma Hmv Hmq]. constructor; auto. cbn [V2.queue].
           rewrite <- Hmq, Eq2. simpl. now rewrite Ein2.
        -- rewrite Eq1. unfold work_left in *. simpl length in *. lia.
        -- rewrite Eq1. unfold work_left in *. simpl length in *. lia.
        -- unfold work_left in *. simpl length in *. lia.
Qed.

End Mirror.

(** * Paths and the flooded set *)

Lemma last_app_one {A} (l : list A) (a d : A) : List.last (l ++ [a]) d = a.
Proof. apply last_last. Qed.

Lemma last_cons {A} (a : A) (l : list A) (d : A) :
  List.last (a :: l) d = List.last l a.
Proof.
  revert a d. induction l as [|b l IH]; intros a d; [reflexivity|].
  change (List.last (a :: b :: l) d) with (List.last (b :: l) d).
  rewrite !IH. reflexivity.
Qed.

Lemma linked_app (p : Z * Z) (l : list (Z * Z)) (q : Z * Z) :
  linked p (l ++ [q]) <-> linked p l /\ adjacent (List.last l p) q.
Proof.
  revert p. induction l as [|a l IH]; intros p.
  - simpl. tauto.
  - rewrite last_cons. simpl. rewrite IH. tauto.
Qed.

Lemma flooded_joins (img : image pixel) (bg_color : color) (tolerance : Z) (p : Z * Z) :
  flooded img bg_color tolerance p <-> joins_border img bg_color tolerance p.
Proof.
  split.
  - intros H. induction H as [p Hb Hbg|p q _ IH Hadj Hq Hbg].
    + exists p, []. split; [exact Hb|]. split; [reflexivity|]. split; [exact I|].
      constructor; [split; [apply Hb|exact Hbg]|constructor].
    + destruct IH as (b & rest & Hb & Hlast & Hlink & Hall).
      exists b, (rest ++ [q]). split; [exact Hb|]. split; [apply last_app_one|].
      split.
      * apply linked_app. rewrite Hlast. auto.
      * rewrite app_comm_cons. apply Forall_app. split; [exact Hall|].
        constructor; [auto|constructor].
  - intros (b & rest & Hb & Hlast & Hlink & Hall). subst p.
    induction rest as [|q rest IH] using rev_ind.
    + simpl. apply flooded_border; [exact Hb|].
      inversion Hall; subst. tauto.
    + rewrite last_app_one. apply linked_app in Hlink. destruct Hlink as [Hlink Hadj].
      rewrite app_comm_cons in Hall. apply Forall_app in Hall.
      destruct Hall as [Hall Hq]. inversion Hq; subst.
      eapply flooded_next; [apply IH; auto|exact Hadj|tauto|tauto].
Qed.

(** * Bounding box and crop *)

Lemma in_last {A} (l : list A) (a : A) : In (List.last l a) (a :: l).
Proof.
  revert a. induction l as [|b l IH]; intros a; [now left|].
  rewrite last_cons. right. apply IH.
Qed.

(** A filtered range is increasing: it starts at its least element and
    ends at its greatest. *)
Lemma filter_seq_bounds (f : Z -> bool) (n s : nat) (a : Z) (l : list Z) :
  List.filter f (map Z.of_nat (seq s n)) = a :: l ->
  Z.of_nat s <= a /\ forall c, In c (a :: l) -> a <= c <= List.last l a.
Proof.
  revert s a l. induction n as [|n IH]; intros s a l; simpl; [discriminate|].
  destruct (f (Z.of_nat s)).
  - intros [= <- <-]. split; [lia|].
    destruct (List.filter f (map Z.of_nat (seq (S s) n))) as [|a' l'] eqn:E.
    + simpl. intros c [<-|[]]. lia.
    + destruct (IH _ _ _ E) as [Hs Hall]. intros c Hc.
      rewrite last_cons.
      pose proof (Hall a' (or_introl eq_refl)).
      destruct Hc as [<-|Hc]; [lia|]. specialize (Hall c Hc). lia.
  - intros E. destruct (IH _ _ _ E) as [Hs Hall]. split; [lia|exact Hall].
Qed.

Lemma filter_range_bounds (f : Z -> bool) (n : nat) (a : Z) (l : list Z) :
  List.filter f (range n) = a :: l ->
  forall c, In c (a :: l) ->
    a <= c <= List.last l a /\ 0 <= c < Z.of_nat n /\ f c = true.
Proof.
  intros E c Hc. destruct (filter_seq_bounds f n 0 a l E) as [_ Hall].
  split; [auto|]. rewrite <- E in Hc. apply filter_In in Hc.
  rewrite in_range in Hc. exact Hc.
Qed.

Lemma filter_nil {A} (f : A -> bool) (l : list A) :
  (forall a, In a l -> f a = false) -> List.filter f l = [].
Proof.
  induction l as [|a l IH]; intros H; simpl; [reflexivity|].
  rewrite (H a) by now left. apply IH. intros b Hb. apply H. now right.
Qed.

Lemma range_S (n : nat) : range (S n) = range n ++ [Z.of_nat n].
Proof. unfold range. rewrite seq_S, map_app. reflexivity. Qed.

Lemma range_cons (n : nat) : exists tl, range (S n) = 0 :: tl.
Proof. unfold range. simpl. eauto. Qed.

(** A filtered range whose two ends pass the test starts at 0 and ends
    at [n - 1]. *)
Lemma filter_range_ends (f : Z -> bool) (n : nat) :
  (0 < n)%nat -> f 0 = true -> f (Z.of_nat n - 1) = true ->
  exists l, List.filter f (range n) = 0 :: l /\ List.last l 0 = Z.of_nat n - 1.
Proof.
  intros Hn H0 Hlast. destruct n as [|n]; [lia|].
  replace (Z.of_nat (S n) - 1) with (Z.of_nat n) in * by lia.
  destruct (range_cons n) as [tl Htl].
  exists (List.filter f tl). split; [rewrite Htl; simpl; now rewrite H0|].
  destruct n as [|n].
  - unfold range in Htl. simpl in Htl. injection Htl as <-. reflexivity.
  - assert (E : 0 :: List.filter f tl = List.filter f (range (S n)) ++ [Z.of_nat (S n)]).
    { transitivity (List.filter f (range (S (S n)))).
      - rewrite Htl. simpl. now rewrite H0.
      - rewrite (range_S (S n)), List.filter_app. simpl. now rewrite Hlast. }
    destruct (range_cons n) as [tl' Htl']. rewrite Htl' in E. simpl in E.
    rewrite H0 in E. simpl in E. injection E as ->. apply last_last.
Qed.

Lemma nth_tabulate {B} (G : Z -> B) (n k : nat) (d : B) :
  (k < n)%nat -> nth k (map G (range n)) d = G (Z.of_nat k).
Proof.
  intros Hk. unfold range. rewrite map_map.
  rewrite (nth_indep _ d (G (Z.of_nat 0))) by (rewrite length_map, length_seq; lia).
  rewrite (map_nth (fun i => G (Z.of_nat i))), seq_nth by lia. reflexivity.
Qed.

(** Reading a grid that was built coordinate by coordinate. *)
Lemma grid_get_tabulate {A} (d : A) (F : Z -> Z -> A) (w h : nat) (x y : Z) :
  0 <= x < Z.of_nat w -> 0 <= y < Z.of_nat h ->
  grid_get d (map (fun j => map (fun i => F i j) (range w)) (range h)) x y = F x y.
Proof.
  intros Hx Hy. unfold grid_get.
  rewrite (nth_tabulate (fun j => map (fun i => F i j) (range w))) by lia.
  rewrite (nth_tabulate (fun i => F i (Z.of_nat (Z.to_nat y)))) by lia.
  rewrite !Z2Nat.id by lia. reflexivity.
Qed.

Lemma inside_true {P} (img : image P) (x y : Z) :
  inside img x y = true <-> 0 <= x < xsize img /\ 0 <= y < ysize img.
Proof. unfold inside. rewrite !andb_true_iff. lia. Qed.

Lemma no_content_no_bbox (img : image pixel) :
  (forall x y, 0 <= x < xsize img -> 0 <= y < ysize img ->
               has_content (load img x y) = false) ->
  getbbox img = None.
Proof.
  intros H. unfold getbbox, content_columns.
  rewrite filter_nil; [reflexivity|].
  intros x Hx. apply in_range in Hx.
  apply not_true_is_false. intros E. apply existsb_exists in E.
  destruct E as (y & Hy & E). apply in_range in Hy.
  rewrite H in E by assumption. discriminate.
Qed.

(** What [getbbox] returns is a box of the image with content on each of
    its four sides. *)
Lemma getbbox_tight (img : image pixel) x0 y0 x1 y1 :
  getbbox img = Some (x0, y0, x1, y1) ->
  0 <= x0 < x1 /\ x1 <= xsize img /\ 0 <= y0 < y1 /\ y1 <= ysize img /\
  (exists y, y0 <= y < y1 /\ has_content (load img x0 y) = true) /\
  (exists y, y0 <= y < y1 /\ has_content (load img (x1 - 1) y) = true) /\
  (exists x, x0 <= x < x1 /\ has_content (load img x y0) = true) /\
  (exists x, x0 <= x < x1 /\ has_content (load img x (y1 - 1)) = true).
Proof.
  unfold getbbox.
  destruct (content_columns img) as [|cx xs] eqn:Ecols; [discriminate|].
  destruct (content_rows img) as [|cy ys] eqn:Erows; [discriminate|].
  intros [= <- <- <- <-].
  pose proof (filter_range_bounds _ _ _ _ Ecols) as Hcols.
  pose proof (filter_range_bounds _ _ _ _ Erows) as Hrows.
  assert (Hcol : forall c, In c (cx :: xs) ->
            exists y, cy <= y < List.last ys cy + 1 /\ has_content (load img c y) = true).
  { intros c Hc. destruct (Hcols c Hc) as (_ & Hc' & E).
    apply existsb_exists in E. destruct E as (y & Hy & E). exists y. split; [|exact E].
    assert (Hin : In y (cy :: ys)).
    { rewrite <- Erows. apply filter_In. split; [exact Hy|].
      apply existsb_exists. exists c. split; [now apply in_range|exact E]. }
    destruct (Hrows y Hin). lia. }
  assert (Hrow : forall r, In r (cy :: ys) ->
            exists x, cx <= x < List.last xs cx + 1 /\ has_content (load img x r) = true).
  { intros r Hr. destruct (Hrows r Hr) as (_ & Hr' & E).
    apply existsb_exists in E. destruct E as (x & Hx & E). exists x. split; [|exact E].
    assert (Hin : In x (cx :: xs)).
    { rewrite <- Ecols. apply filter_In. split; [exact Hx|].
      apply existsb_exists. exists r. split; [now apply in_range|exact E]. }
    destruct (Hcols x Hin). lia. }
  pose proof (Hcols cx (or_introl eq_refl)) as Hx0.
  pose proof (Hcols _ (in_last xs cx)) as Hx1.
  pose proof (Hrows cy (or_introl eq_refl)) as Hy0.
  pose proof (Hrows _ (in_last ys cy)) as Hy1.
  unfold xsize, ysize.
  replace (List.last xs cx + 1 - 1) with (List.last xs cx) by lia.
  replace (List.last ys cy + 1 - 1) with (List.last ys cy) by lia.
  repeat split; try lia.
  - apply Hcol. now left.
  - apply Hcol. apply in_last.
  - apply Hrow. now left.
  - apply Hrow. apply in_last.
Qed.

Lemma load_crop (img : image pixel) x0 y0 x1 y1 r i j :
  crop img (x0, y0, x1, y1) = Ok r ->
  0 <= x0 -> x1 <= xsize img -> 0 <= y0 -> y1 <= ysize img ->
  0 <= i < x1 - x0 -> 0 <= j < y1 - y0 ->
  load r i j = load img (x0 + i) (y0 + j).
Proof.
  unfold crop. destruct ((x1 <? x0) || (y1 <? y0)); [discriminate|].
  intros [= <-] Hx0 Hx1 Hy0 Hy1 Hi Hj. unfold load at 1. cbn [data].
  rewrite (grid_get_tabulate transparent_black
             (fun i j => if inside img (x0 + i) (y0 + j)
                         then load img (x0 + i) (y0 + j) else zero_of img))
    by lia.
  rewrite (proj2 (inside_true img (x0 + i) (y0 + j))) by lia. reflexivity.
Qed.

(** Cropping an image to its own bounding box, and the result again. *)
Lemma crop_to_content_twice (img : image pixel) :
  exists r, V1.crop_to_content img 0 = Ok r /\ V1.crop_to_content r 0 = Ok r /\
            (getbbox r = None \/ getbbox r = Some (0, 0, xsize r, ysize r)).
Proof.
  unfold V1.crop_to_content at 1.
  destruct (getbbox img) as [[[[x0 y0] x1] y1]|] eqn:Ebox.
  2:{ exists img. unfold V1.crop_to_content. rewrite Ebox. auto. }
  destruct (getbbox_tight _ _ _ _ _ Ebox)
    as (Hx & Hx1 & Hy & Hy1 & (ya & Hya & Ea) & (yb & Hyb & Eb) &
        (xa & Hxa & Ec) & (xb & Hxb & Ed)).
  rewrite !Z.sub_0_r, !Z.add_0_r.
  rewrite (Z.max_r 0 x0), (Z.max_r 0 y0), (Z.min_r (xsize img) x1),
    (Z.min_r (ysize img) y1) by lia.
  destruct (crop img (x0, y0, x1, y1)) as [r|e] eqn:Ecrop.
  2:{ unfold crop in Ecrop.
      destruct ((x1 <? x0) || (y1 <? y0)) eqn:E; [|discriminate].
      rewrite orb_true_iff, !Z.ltb_lt in E. lia. }
  exists r. split; [reflexivity|].
  assert (Hload : forall i j, 0 <= i < x1 - x0 -> 0 <= j < y1 - y0 ->
            load r i j = load img (x0 + i) (y0 + j)).
  { intros i j Hi Hj. apply (load_crop img x0 y0 x1 y1); auto; lia. }
  assert (Hw : xsize r = x1 - x0 /\ ysize r = y1 - y0).
  { unfold crop in Ecrop. destruct ((x1 <? x0) || (y1 <? y0)); [discriminate|].
    injection Ecrop as <-. unfold xsize, ysize. cbn [width height]. lia. }
  destruct Hw as [Hw Hh].
  assert (Hbox : getbbox r = Some (0, 0, xsize r, ysize r)).
  { unfold getbbox, content_columns, content_rows.
    destruct (filter_range_ends
                (fun x => existsb (fun y => has_content (load r x y)) (range (height r)))
                (width r)) as (xs & -> & Hxs).
    { unfold xsize in Hw. lia. }
    { apply existsb_exists. exists (ya - y0). split.
      - apply in_range. unfold ysize in Hh. lia.
      - rewrite Hload by lia.
        replace (x0 + 0) with x0 by lia. replace (y0 + (ya - y0)) with ya by lia.
        exact Ea. }
    { apply existsb_exists. exists (yb - y0). split.
      - apply in_range. unfold ysize in Hh. lia.
      - unfold xsize in Hw. rewrite Hload by lia.
        replace (x0 + (Z.of_nat (width r) - 1)) with (x1 - 1) by lia.
        replace (y0 + (yb - y0)) with yb by lia. exact Eb. }
    destruct (filter_range_ends
                (fun y => existsb (fun x => has_content (load r x y)) (range (width r)))
                (height r)) as (ys & -> & Hys).
    { unfold ysize in Hh. lia. }
    { apply existsb_exists. exists (xa - x0). split.
      - apply in_range. unfold xsize in Hw. lia.
      - rewrite Hload by lia.
        replace (y0 + 0) with y0 by lia. replace (x0 + (xa - x0)) with xa by lia.
        exact Ec. }
    { apply existsb_exists. exists (xb - x0). split.
      - apply in_range. unfold xsize in Hw. lia.
      - unfold ysize in Hh. rewrite Hload by lia.
        replace (y0 + (Z.of_nat (height r) - 1)) with (y1 - 1) by lia.
        replace (x0 + (xb - x0)) with xb by lia. exact Ed. }
    rewrite Hxs, Hys. unfold xsize, ysize. repeat f_equal; lia. }
  split; [|now right].
  unfold V1.crop_to_content. rewrite Hbox.
  rewrite !Z.sub_0_r, !Z.add_0_r, !Z.max_id, !Z.min_id.
  unfold crop.
  destruct ((xsize r <? 0) || (ysize r <? 0)) eqn:E.
  { rewrite orb_true_iff, !Z.ltb_lt in E. lia. }
  f_equal. unfold xsize, ysize. rewrite !Z.sub_0_r, !Nat2Z.id.
  unfold crop in Ecrop. destruct ((x1 <? x0) || (y1 <? y0)); [discriminate|].
  injection Ecrop as <-. cbn [width height data]. f_equal.
  apply map_ext_in. intros j Hj. apply map_ext_in. intros i Hi.
  apply in_range in Hi, Hj.
  set (w := Z.to_nat (x1 - x0)) in *. set (h := Z.to_nat (y1 - y0)) in *.
  rewrite (proj2 (inside_true (Image w h _) (0 + i) (0 + j)))
    by (unfold xsize, ysize; cbn [width height]; lia).
  unfold load at 1. cbn [data]. rewrite !Z.add_0_l.
  apply (grid_get_tabulate transparent_black
           (fun i j => if inside img (x0 + i) (y0 + j)
                       then load img (x0 + i) (y0 + j) else zero_of img)); lia.
Qed.

(** * The colour test and the Euclidean distance *)

Lemma sq_distance_nonneg (c1 c2 : color) : 0 <= sq_distance c1 c2.
Proof.
  destruct c1 as [[r1 g1] b1], c2 as [[r2 g2] b2]. unfold sq_distance.
  cbv beta iota. rewrite !Z.pow_2_r.
  pose proof (Z.square_nonneg (r1 - r2)). pose proof (Z.square_nonneg (g1 - g2)).
  pose proof (Z.square_nonneg (b1 - b2)). lia.
Qed.

Lemma within_tolerance_spec (c1 c2 : color) (t : Z) :
  within_tolerance c1 c2 t = true <-> (color_distance c1 c2 <= IZR t)%R.
Proof.
  unfold within_tolerance, color_distance. rewrite andb_true_iff, !Z.leb_le.
  pose proof (sq_distance_nonneg c1 c2) as Hd.
  set (d := sq_distance c1 c2) in *. split.
  - intros [Ht Hle]. rewrite <- (sqrt_square (IZR t)) by (apply IZR_le; exact Ht).
    apply sqrt_le_1_alt. rewrite <- mult_IZR. apply IZR_le. exact Hle.
  - intros H. assert (Ht : 0 <= t).
    { apply le_IZR. eapply Rle_trans; [apply sqrt_pos|exact H]. }
    split; [exact Ht|]. apply le_IZR. rewrite mult_IZR.
    rewrite <- (sqrt_sqrt (IZR d)) by (apply IZR_le; exact Hd).
    apply Rmult_le_compat; try apply sqrt_pos; exact H.
Qed.

(** * What the second loop maintains about its mask *)

Section MaskSound.
Variables (img : image pixel) (bg_color : color) (tolerance : Z).

Abbreviation mask_sound := (mask_sound img bg_color tolerance).

Lemma start_mask_sound : mask_sound (V2.start img).
Proof.
  split; cbn [V2.start V2.alpha new_L data]; [apply shaped_fill|].
  intros x y Hx Hy. unfold xsize, ysize in *.
  rewrite grid_get_fill by lia. discriminate.
Qed.

Lemma visit_mask_sound (st st' : V2.fill_state) :
  mask_sound st -> V2.visit img bg_color tolerance st = Some st' -> mask_sound st'.
Proof.
  intros [Hs Hm]. unfold V2.visit.
  destruct (V2.queue st) as [|[x y] rest]; [discriminate|].
  destruct (bool_decide _); [intros [= <-]; split; auto|].
  destruct ((x <? 0) || (x >=? xsize img) || (y <? 0) || (y >=? ysize img)) eqn:Eout;
    [intros [= <-]; split; auto|].
  rewrite !orb_false_iff in Eout.
  destruct (within_tolerance (bands3 (load img x y)) bg_color tolerance) eqn:Ebg;
    intros [= <-]; [|split; auto].
  split; unfold V2.putpixel; cbn [V2.alpha data]; [now apply shaped_set|].
  intros x' y' Hx' Hy'. unfold xsize, ysize in *.
  rewrite (grid_get_set 255 _ _ _ _ _ _ _ _ Hs) by lia.
  destruct (decide _) as [[= -> ->]|_]; [intros _; exact Ebg|].
  apply Hm; unfold xsize, ysize; lia.
Qed.

Lemma after_turns_mask_sound (n : nat) (st : V2.fill_state) :
  mask_sound st -> mask_sound (after_turns_v2 n img bg_color tolerance st).
Proof.
  revert st. induction n as [|n IH]; intros st H; simpl; [exact H|].
  destruct (V2.visit img bg_color tolerance st) eqn:E; [|exact H].
  apply IH. eapply visit_mask_sound; eauto.
Qed.

Lemma drain_mask_sound (fuel : nat) (st st' : V2.fill_state) :
  mask_sound st -> V2.drain fuel img bg_color tolerance st = Some st' ->
  mask_sound st'.
Proof.
  revert st. induction fuel as [|fuel IH]; intros st H; simpl;
    destruct (V2.visit img bg_color tolerance st) eqn:E; try discriminate.
  - intros [= <-]. exact H.
  - apply IH. eapply visit_mask_sound; eauto.
  - intros [= <-]. exact H.
Qed.

(** Both fills end; the second returns the mask of the first. *)
Lemma fills_end :
  exists (st1 : V1.fill_state) (st2 : V2.fill_state),
    V1.drain (V1.turns img) img bg_color tolerance (V1.start img) = Some st1 /\
    V2.drain (V2.turns img) img bg_color tolerance (V2.start img) = Some st2 /\
    fill_inv img bg_color tolerance st1 /\ V1.queue st1 = [] /\
    two_valued (V1.alpha st1) /\ mirrors img st1 st2.
Proof.
  pose proof (start_inv img bg_color tolerance) as Hinv.
  pose proof (start_work img) as Hwork.
  destruct (drain_ends img bg_color tolerance (V1.turns img) (V1.start img) Hinv)
    as (st1 & Hd1 & Hinv1 & Hq1); [lia|].
  destruct (drains_agree img bg_color tolerance
              (V1.turns img + V1.turns img) (V1.start img) (V2.start img)
              (V1.turns img) (V2.turns img) Hinv (start_mirrors img))
    as (st1' & st2 & Hd1' & Hd2 & Hm).
  { change (V2.queue (V2.start img)) with (V1.queue (V1.start img)). lia. }
  { lia. }
  { change (V2.queue (V2.start img)) with (V1.queue (V1.start img)).
    change (V2.turns img) with (V1.turns img). lia. }
  rewrite Hd1 in Hd1'. injection Hd1' as <-.
  exists st1, st2. split; [exact Hd1|]. split; [exact Hd2|].
  split; [exact Hinv1|]. split; [exact Hq1|]. split; [|exact Hm].
  apply (drain_two_valued img bg_color tolerance _ _ _) with (2 := Hd1).
  unfold two_valued, V1.start, grid_fill. cbn [V1.alpha].
  apply List.Forall_forall. intros row Hrow. apply repeat_spec in Hrow. subst row.
  apply List.Forall_forall. intros a Ha. apply repeat_spec in Ha. auto.
Qed.

End MaskSound.

(** * The flood fill: the properties of the specification *)


(** C1.  The fill of both scripts ends, and the mask it returns is 0 at a
    pixel of the region exactly when an 8-connected path of pixels within
    the tolerance joins that pixel to the border; elsewhere it stays 255. *)
Theorem flood_fill_clears_what_joins_the_border
    (img : image pixel) (bg_color : color) (tolerance : Z) (x y : Z) :
  0 <= x < xsize img -> 0 <= y < ysize img ->
  exists mask : grid Z,
    V1.flood_fill_background img bg_color tolerance = Some mask /\
    V2.flood_fill_background img bg_color tolerance =
      Some (Image (width img) (height img) mask) /\
    (grid_get 255 mask x y = 0 <-> joins_border img bg_color tolerance (x, y)) /\
    (~ joins_border img bg_color tolerance (x, y) -> grid_get 255 mask x y = 255).
Proof.
  intros Hx Hy.
  destruct (fills_end img bg_color tolerance)
    as (st1 & st2 & Hd1 & Hd2 & Hinv & Hq & _ & Hm).
  exists (V1.alpha st1).
  unfold V1.flood_fill_background, V2.flood_fill_background.
  rewrite Hd1, Hd2. cbn [option_map].
  split; [reflexivity|]. split.
  { destruct Hm as [Hmw Hmh Hma _ _]. destruct (V2.alpha st2) as [w h d].
    cbn [width height data] in *. now subst. }
  destruct (cleared_iff_flooded img bg_color tolerance st1 (x, y) Hinv Hq) as [Hiff Hno].
  { split; assumption. }
  cbn [fst snd] in *. rewrite <- flooded_joins. split; assumption.
Qed.

Lemma flood_fill_clears_what_joins_the_border_witness :
  (0 <= 2 < xsize ringed_hole /\ 0 <= 2 < ysize ringed_hole) /\
  exists mask : grid Z,
    V1.flood_fill_background ringed_hole white_bg 10 = Some mask /\
    V2.flood_fill_background ringed_hole white_bg 10 = Some (Image 5 5 mask) /\
    (grid_get 255 mask 2 2 = 0 <-> joins_border ringed_hole white_bg 10 (2, 2)) /\
    (~ joins_border ringed_hole white_bg 10 (2, 2) -> grid_get 255 mask 2 2 = 255).
Proof.
  split; [in_bounds|].
  apply (flood_fill_clears_what_joins_the_border ringed_hole white_bg 10 2 2); in_bounds.
Defined.

(** The enclosed white pixel of [ringed_hole] keeps its alpha; the ground
    around the ring loses it. *)
Example ringed_hole_mask :
  V1.flood_fill_background ringed_hole white_bg 10 =
  Some [[0; 0; 0; 0; 0];
        [0; 255; 255; 255; 0];
        [0; 255; 255; 255; 0];
        [0; 255; 255; 255; 0];
        [0; 0; 0; 0; 0]].
Proof. vm_compute. reflexivity. Qed.

(** C2.  After any number of turns of either loop, and in the mask either
    fill returns, a pixel whose mask entry is 0 lies within the tolerance
    of the background colour. *)
Theorem flood_fill_never_clears_beyond_tolerance
    (img : image pixel) (bg_color : color) (tolerance : Z) (n : nat) (x y : Z) :
  0 <= x < xsize img -> 0 <= y < ysize img ->
  (grid_get 255 (V1.alpha (after_turns n img bg_color tolerance (V1.start img))) x y = 0 ->
   (color_distance (bands3 (load img x y)) bg_color <= IZR tolerance)%R) /\
  (grid_get 255 (data (V2.alpha (after_turns_v2 n img bg_color tolerance (V2.start img)))) x y = 0 ->
   (color_distance (bands3 (load img x y)) bg_color <= IZR tolerance)%R) /\
  exists (mask1 : grid Z) (mask2 : image Z),
    V1.flood_fill_background img bg_color tolerance = Some mask1 /\
    V2.flood_fill_background img bg_color tolerance = Some mask2 /\
    (grid_get 255 mask1 x y = 0 ->
     (color_distance (bands3 (load img x y)) bg_color <= IZR tolerance)%R) /\
    (grid_get 255 (data mask2) x y = 0 ->
     (color_distance (bands3 (load img x y)) bg_color <= IZR tolerance)%R).
Proof.
  intros Hx Hy.
  assert (Hinv : forall st, fill_inv img bg_color tolerance st ->
            grid_get 255 (V1.alpha st) x y = 0 ->
            (color_distance (bands3 (load img x y)) bg_color <= IZR tolerance)%R).
  { intros st Hst Hz. apply within_tolerance_spec.
    pose proof (inv_alpha _ _ _ _ Hst (x, y)) as Ha. cbn [fst snd] in Ha.
    rewrite Ha in Hz by (split; assumption).
    destruct (grid_get false (V1.visited st) x y); simpl in Hz; [|discriminate].
    destruct (within_tolerance _ _ _); [reflexivity|discriminate]. }
  assert (Hsound : forall st, mask_sound img bg_color tolerance st ->
            grid_get 255 (data (V2.alpha st)) x y = 0 ->
            (color_distance (bands3 (load img x y)) bg_color <= IZR tolerance)%R).
  { intros st [_ Hst] Hz. apply within_tolerance_spec. now apply Hst. }
  split; [apply Hinv, after_turns_inv, start_inv|].
  split; [apply Hsound, after_turns_mask_sound, start_mask_sound|].
  destruct (fills_end img bg_color tolerance)
    as (st1 & st2 & Hd1 & Hd2 & Hinv1 & _ & _ & _).
  exists (V1.alpha st1), (V2.alpha st2).
  unfold V1.flood_fill_background, V2.flood_fill_background.
  rewrite Hd1, Hd2. cbn [option_map].
  split; [reflexivity|]. split; [reflexivity|].
  split; [now apply Hinv|]. apply Hsound.
  eapply drain_mask_sound; [apply start_mask_sound|exact Hd2].
Qed.

Lemma flood_fill_never_clears_beyond_tolerance_witness :
  (0 <= 1 < xsize near_white_dot /\ 0 <= 1 < ysize near_white_dot) /\
  ((grid_get 255 (V1.alpha (after_turns 40 near_white_dot white_bg 10 (V1.start near_white_dot))) 1 1 = 0 ->
   (color_distance (bands3 (load near_white_dot 1 1)) white_bg <= IZR 10)%R) /\
  (grid_get 255 (data (V2.alpha (after_turns_v2 40 near_white_dot white_bg 10 (V2.start near_white_dot)))) 1 1 = 0 ->
   (color_distance (bands3 (load near_white_dot 1 1)) white_bg <= IZR 10)%R) /\
  exists (mask1 : grid Z) (mask2 : image Z),
    V1.flood_fill_background near_white_dot white_bg 10 = Some mask1 /\
    V2.flood_fill_background near_white_dot white_bg 10 = Some mask2 /\
    (grid_get 255 mask1 1 1 = 0 ->
     (color_distance (bands3 (load near_white_dot 1 1)) white_bg <= IZR 10)%R) /\
    (grid_get 255 (data mask2) 1 1 = 0 ->
     (color_distance (bands3 (load near_white_dot 1 1)) white_bg <= IZR 10)%R)).
Proof.
  split; [in_bounds|].
  apply (flood_fill_never_clears_beyond_tolerance near_white_dot white_bg 10 40 1 1);
    in_bounds.
Defined.

(** C10.  The two fills return the same mask: the samples of the L image
    of the second script are the rows of the first, each 0 or 255. *)
Theorem flood_fills_agree (img : image pixel) (bg_color : color) (tolerance : Z) :
  exists mask : grid Z,
    V1.flood_fill_background img bg_color tolerance = Some mask /\
    V2.flood_fill_background img bg_color tolerance =
      Some (Image (width img) (height img) mask) /\
    shaped (width img) (height img) mask /\ two_valued mask.
Proof.
  destruct (fills_end img bg_color tolerance)
    as (st1 & st2 & Hd1 & Hd2 & Hinv & _ & Htv & Hm).
  exists (V1.alpha st1).
  unfold V1.flood_fill_background, V2.flood_fill_background.
  rewrite Hd1, Hd2. cbn [option_map].
  split; [reflexivity|]. split.
  { destruct Hm as [Hmw Hmh Hma _ _]. destruct (V2.alpha st2) as [w h d].
    cbn [width height data] in *. now subst. }
  split; [apply (inv_alpha_shape _ _ _ _ Hinv)|exact Htv].
Qed.

(** C3.  The test is inclusive: in every state the first loop reaches, and
    in the state it ends in, a visited pixel at distance exactly the
    tolerance has mask entry 0.  On [near_white_dot] the middle pixel, at
    distance sqrt 75 of white, is visited and kept at tolerance 5, and
    cleared at tolerance 10. *)
Theorem threshold_is_inclusive :
  (forall (img : image pixel) (bg_color : color) (tolerance : Z) (n : nat) (x y : Z),
      0 <= x < xsize img -> 0 <= y < ysize img ->
      color_distance (bands3 (load img x y)) bg_color = IZR tolerance ->
      (grid_get false (V1.visited (after_turns n img bg_color tolerance (V1.start img))) x y = true ->
       grid_get 255 (V1.alpha (after_turns n img bg_color tolerance (V1.start img))) x y = 0) /\
      exists st : V1.fill_state,
        V1.drain (V1.turns img) img bg_color tolerance (V1.start img) = Some st /\
        V1.flood_fill_background img bg_color tolerance = Some (V1.alpha st) /\
        (grid_get false (V1.visited st) x y = true ->
         grid_get 255 (V1.alpha st) x y = 0)) /\
  sq_distance near_white white_bg = 75 /\
  (IZR 5 < color_distance near_white white_bg <= IZR 10)%R /\
  option_map (fun st => grid_get false (V1.visited st) 1 1)
    (V1.drain (V1.turns near_white_dot) near_white_dot white_bg 5
       (V1.start near_white_dot)) = Some true /\
  V1.flood_fill_background near_white_dot white_bg 5 =
    Some [[0; 0; 0]; [0; 255; 0]; [0; 0; 0]] /\
  V1.flood_fill_background near_white_dot white_bg 10 =
    Some [[0; 0; 0]; [0; 0; 0]; [0; 0; 0]].
Proof.
  split.
  { intros img bg_color tolerance n x y Hx Hy Hdist.
    assert (Hclose : within_tolerance (bands3 (load img x y)) bg_color tolerance = true).
    { apply within_tolerance_spec. rewrite Hdist. apply Rle_refl. }
    assert (Hinv : forall st, fill_inv img bg_color tolerance st ->
              grid_get false (V1.visited st) x y = true ->
              grid_get 255 (V1.alpha st) x y = 0).
    { intros st Hst Hv. pose proof (inv_alpha _ _ _ _ Hst (x, y)) as Ha.
      cbn [fst snd] in Ha. rewrite Ha by (split; assumption).
      rewrite Hv, Hclose. reflexivity. }
    split; [apply Hinv, after_turns_inv, start_inv|].
    destruct (fills_end img bg_color tolerance)
      as (st1 & _ & Hd1 & _ & Hinv1 & _ & _ & _).
    exists st1. split; [exact Hd1|].
    unfold V1.flood_fill_background. rewrite Hd1. split; [reflexivity|].
    now apply Hinv. }
  split; [reflexivity|]. split.
  { split.
    - apply Rnot_le_lt. intros Hle. apply within_tolerance_spec in Hle.
      vm_compute in Hle. discriminate.
    - apply within_tolerance_spec. reflexivity. }
  split; [vm_compute; reflexivity|]. split; vm_compute; reflexivity.
Qed.

Lemma threshold_is_inclusive_witness :
  (0 <= 0 < xsize edge_dot /\ 0 <= 0 < ysize edge_dot /\
   color_distance (bands3 (load edge_dot 0 0)) white_bg = IZR 5) /\
  exists st : V1.fill_state,
    V1.drain (V1.turns edge_dot) edge_dot white_bg 5 (V1.start edge_dot) = Some st /\
    V1.flood_fill_background edge_dot white_bg 5 = Some (V1.alpha st) /\
    (grid_get false (V1.visited st) 0 0 = true -> grid_get 255 (V1.alpha st) 0 0 = 0).
Proof.
  assert (Hdist : color_distance (bands3 (load edge_dot 0 0)) white_bg = IZR 5).
  { unfold color_distance.
    replace (sq_distance (bands3 (load edge_dot 0 0)) white_bg) with (5 * 5)
      by reflexivity.
    rewrite mult_IZR. apply sqrt_square. apply IZR_le. lia. }
  split; [split; [in_bounds|split; [in_bounds|exact Hdist]]|].
  apply (proj1 threshold_is_inclusive edge_dot white_bg 5 0%nat 0 0);
    [in_bounds|in_bounds|exact Hdist].
Defined.

(** * The alpha mask *)

Lemma for_each_map {A B} (f : A -> result B) (g : A -> B) (xs : list A) :
  (forall a, In a xs -> f a = Ok (g a)) -> for_each f xs = Ok (map g xs).
Proof.
  induction xs as [|a xs IH]; intros H; simpl; [reflexivity|].
  rewrite (H a) by now left. simpl.
  rewrite IH by (intros b Hb; apply H; now right). reflexivity.
Qed.

Lemma index_nth {A} (l : list A) (i : Z) (d : A) :
  0 <= i < Z.of_nat (length l) -> index l i = Ok (nth (Z.to_nat i) l d).
Proof.
  intros Hi. unfold index.
  rewrite (nth_error_nth' l d) by lia. reflexivity.
Qed.

Lemma apply_alpha_mask_shaped (img : image pixel) (mask : grid Z) :
  shaped (width img) (height img) mask ->
  V1.apply_alpha_mask img mask =
  Ok (Image (width img) (height img)
        (map (fun y =>
                map (fun x =>
                       let '(r, g, b) := bands3 (load img x y) in
                       RGBA r g b (grid_get 0 mask x y))
                    (range (width img)))
             (range (height img)))).
Proof.
  intros [Hlen Hrows]. unfold V1.apply_alpha_mask.
  rewrite (for_each_map _
             (fun y => map (fun x => let '(r, g, b) := bands3 (load img x y) in
                                     RGBA r g b (grid_get 0 mask x y))
                           (range (width img)))); [reflexivity|].
  intros y Hy. apply in_range in Hy. apply for_each_map.
  intros x Hx. apply in_range in Hx.
  destruct (bands3 (load img x y)) as [[r g] b].
  rewrite (index_nth mask y []) by lia. simpl.
  assert (Hrow : length (nth (Z.to_nat y) mask []) = width img).
  { rewrite List.Forall_forall in Hrows. apply Hrows. apply nth_In. lia. }
  rewrite (index_nth _ x 0) by lia. reflexivity.
Qed.

(** C6, as the code has it.  For a mask of the size of the image, both
    scripts return an RGBA image of that size whose colour bands are those
    of the source and whose alpha band is the mask entry, 0 or 255,
    whatever alpha the source carried. *)
Theorem alpha_mask_keeps_colours_and_sets_alpha
    (img : image pixel) (mask : grid Z) (x y : Z) :
  shaped (width img) (height img) mask ->
  0 <= x < xsize img -> 0 <= y < ysize img ->
  exists out : image pixel,
    V1.apply_alpha_mask img mask = Ok out /\
    V2.apply_alpha_mask img (Image (width img) (height img) mask) = Ok out /\
    width out = width img /\ height out = height img /\
    bands3 (load out x y) = bands3 (load img x y) /\
    alpha_band (load out x y) = Some (grid_get 0 mask x y).
Proof.
  intros Hshape Hx Hy. eexists. split; [apply apply_alpha_mask_shaped, Hshape|].
  split.
  { unfold V2.apply_alpha_mask. cbn [width height data].
    rewrite !Nat.eqb_refl. reflexivity. }
  split; [reflexivity|]. split; [reflexivity|].
  match goal with
  | |- context [load ?out x y] =>
      assert (E : load out x y =
                  let '(r, g, b) := bands3 (load img x y) in
                  RGBA r g b (grid_get 0 mask x y))
  end.
  { unfold xsize, ysize in *.
    apply (grid_get_tabulate transparent_black
             (fun x y => let '(r, g, b) := bands3 (load img x y) in
                         RGBA r g b (grid_get 0 mask x y))); lia. }
  rewrite E. destruct (bands3 (load img x y)) as [[r g] b]. split; reflexivity.
Qed.

Lemma alpha_mask_keeps_colours_and_sets_alpha_witness :
  (shaped (width half_clear) (height half_clear) [[255]] /\
   0 <= 0 < xsize half_clear /\ 0 <= 0 < ysize half_clear) /\
  exists out : image pixel,
    V1.apply_alpha_mask half_clear [[255]] = Ok out /\
    V2.apply_alpha_mask half_clear (Image 1 1 [[255]]) = Ok out /\
    width out = 1%nat /\ height out = 1%nat /\
    bands3 (load out 0 0) = (10, 20, 30) /\
    alpha_band (load out 0 0) = Some 255.
Proof.
  assert (Hs : shaped (width half_clear) (height half_clear) [[255]]).
  { split; [reflexivity|]. repeat constructor. }
  split; [split; [exact Hs|split; in_bounds]|].
  apply (alpha_mask_keeps_colours_and_sets_alpha half_clear [[255]] 0 0 Hs); in_bounds.
Defined.

(** C6 as the specification words it fails: a foreground pixel of a source
    that carries an alpha of 128 leaves either script with alpha 255. *)
Lemma alpha_mask_discards_source_alpha :
  alpha_band (load half_clear 0 0) = Some 128 /\
  V1.apply_alpha_mask half_clear [[255]] = Ok (Image 1 1 [[RGBA 10 20 30 255]]) /\
  V2.apply_alpha_mask half_clear (Image 1 1 [[255]]) = Ok (Image 1 1 [[RGBA 10 20 30 255]]) /\
  ~ (exists out : image pixel,
       V1.apply_alpha_mask half_clear [[255]] = Ok out /\
       alpha_band (load out 0 0) = alpha_band (load half_clear 0 0)).
Proof.
  split; [reflexivity|]. split; [reflexivity|]. split; [reflexivity|].
  intros (out & Hout & Halpha). vm_compute in Hout. injection Hout as <-.
  vm_compute in Halpha. discriminate.
Qed.

(** * The crop to content *)

(** C5.  When every pixel of the buffer has alpha 0, the crop of either
    script returns the buffer itself, whatever the padding. *)
Theorem crop_of_transparent_buffer_is_identity (img : image pixel) (padding : Z) :
  (forall x y, 0 <= x < xsize img -> 0 <= y < ysize img ->
               alpha_band (load img x y) = Some 0) ->
  V1.crop_to_content img padding = Ok img /\
  V2.crop_to_content img padding = Ok img.
Proof.
  intros Hclear.
  assert (Hbox : getbbox img = None).
  { apply no_content_no_bbox. intros x y Hx Hy. specialize (Hclear x y Hx Hy).
    destruct (load img x y); simpl in *; [discriminate|].
    injection Hclear as ->. reflexivity. }
  unfold V1.crop_to_content, V2.crop_to_content. rewrite Hbox. split; reflexivity.
Qed.

Lemma crop_of_transparent_buffer_is_identity_witness :
  (forall x y, 0 <= x < xsize all_clear -> 0 <= y < ysize all_clear ->
               alpha_band (load all_clear x y) = Some 0) /\
  V1.crop_to_content all_clear (-3) = Ok all_clear /\
  V2.crop_to_content all_clear (-3) = Ok all_clear.
Proof.
  assert (H : forall x y, 0 <= x < xsize all_clear -> 0 <= y < ysize all_clear ->
                          alpha_band (load all_clear x y) = Some 0).
  { intros x y Hx Hy. unfold xsize, ysize in *. simpl in Hx, Hy.
    assert (Ex : x = 0 \/ x = 1) by lia. assert (Ey : y = 0 \/ y = 1) by lia.
    destruct Ex as [-> | ->], Ey as [-> | ->]; reflexivity. }
  split; [exact H|].
  apply (crop_of_transparent_buffer_is_identity all_clear (-3) H).
Defined.

Lemma length_range (n : nat) : length (range n) = n.
Proof. unfold range. now rewrite length_map, length_seq. Qed.

Lemma tabulate_shaped {A} (d : A) (w h : nat) (g : grid A) :
  shaped w h g ->
  map (fun j => map (fun i => grid_get d g i j) (range w)) (range h) = g.
Proof.
  intros [Hlen Hrows].
  apply (nth_ext _ _ [] []); [now rewrite length_map, length_range|].
  intros n Hn. rewrite length_map, length_range in Hn.
  rewrite nth_tabulate by exact Hn.
  assert (Hrow : length (nth n g []) = w).
  { rewrite List.Forall_forall in Hrows. apply Hrows. apply nth_In. lia. }
  apply (nth_ext _ _ d d); [now rewrite length_map, length_range|].
  intros k Hk. rewrite length_map, length_range in Hk.
  rewrite nth_tabulate by exact Hk. unfold grid_get. now rewrite !Nat2Z.id.
Qed.

(** A well-formed buffer whose bounding box is the whole buffer is left
    as it is by a crop with padding 0. *)
Lemma crop_tight_fixed (img : image pixel) :
  shaped (width img) (height img) (data img) ->
  getbbox img = Some (0, 0, xsize img, ysize img) ->
  V1.crop_to_content img 0 = Ok img.
Proof.
  intros Hshape Hbox. unfold V1.crop_to_content. rewrite Hbox.
  rewrite !Z.sub_0_r, !Z.add_0_r, !Z.max_id, !Z.min_id. unfold crop.
  destruct ((xsize img <? 0) || (ysize img <? 0)) eqn:E.
  { rewrite orb_true_iff, !Z.ltb_lt in E. unfold xsize, ysize in E. lia. }
  f_equal. unfold xsize, ysize. rewrite !Z.sub_0_r, !Nat2Z.id.
  destruct img as [w h d]. cbn [width height data] in *. f_equal.
  transitivity (map (fun j => map (fun i => grid_get transparent_black d i j) (range w))
                     (range h));
    [|apply tabulate_shaped; exact Hshape].
  apply map_ext_in. intros j Hj. apply map_ext_in. intros i Hi.
  apply in_range in Hi, Hj.
  rewrite (proj2 (inside_true (Image w h d) (0 + i) (0 + j)))
    by (unfold xsize, ysize; cbn [width height]; lia).
  rewrite !Z.add_0_l. reflexivity.
Qed.

Lemma crop_to_content_same (img : image pixel) (padding : Z) :
  V2.crop_to_content img padding = V1.crop_to_content img padding.
Proof. reflexivity. Qed.

(** C9.  A crop with padding 0 returns a buffer that a second crop with
    padding 0 returns unchanged; and any well-formed buffer that is already
    as large as its bounding box is returned unchanged. *)
Theorem crop_to_content_idempotent (img : image pixel) :
  (exists r : image pixel,
     V1.crop_to_content img 0 = Ok r /\ V1.crop_to_content r 0 = Ok r /\
     V2.crop_to_content img 0 = Ok r /\ V2.crop_to_content r 0 = Ok r /\
     (getbbox r = None \/ getbbox r = Some (0, 0, xsize r, ysize r))) /\
  (shaped (width img) (height img) (data img) ->
   getbbox img = Some (0, 0, xsize img, ysize img) ->
   V1.crop_to_content img 0 = Ok img /\ V2.crop_to_content img 0 = Ok img).
Proof.
  split.
  - destruct (crop_to_content_twice img) as (r & H1 & H2 & Hbox).
    exists r. split; [exact H1|]. split; [exact H2|].
    split; [exact H1|]. split; [exact H2|exact Hbox].
  - intros Hshape Hbox.
    split; [|rewrite crop_to_content_same]; apply crop_tight_fixed; assumption.
Qed.

Lemma crop_to_content_idempotent_witness :
  (shaped (width opaque_dot) (height opaque_dot) (data opaque_dot) /\
   getbbox opaque_dot = Some (0, 0, xsize opaque_dot, ysize opaque_dot)) /\
  V1.crop_to_content opaque_dot 0 = Ok opaque_dot /\
  V2.crop_to_content opaque_dot 0 = Ok opaque_dot.
Proof.
  assert (Hs : shaped (width opaque_dot) (height opaque_dot) (data opaque_dot)).
  { split; [reflexivity|]. repeat constructor. }
  assert (Hb : getbbox opaque_dot = Some (0, 0, xsize opaque_dot, ysize opaque_dot)).
  { reflexivity. }
  split; [split; assumption|].
  apply (proj2 (crop_to_content_idempotent opaque_dot) Hs Hb).
Defined.

(** * The background colour *)

(** C8.  On a buffer of at least 10x10 the four samples of either script
    lie inside the buffer, and the colour returned is, band by band, the
    floor of the mean of the four samples: at 5 from the left and top
    edges, and at [size - 6] (first script) or [size - 5] (second script)
    on the right and bottom. *)
Theorem background_is_mean_of_corner_samples (img : image pixel) :
  10 <= xsize img -> 10 <= ysize img ->
  (inside img 5 5 && inside img (xsize img - 6) 5 &&
   inside img 5 (ysize img - 6) && inside img (xsize img - 6) (ysize img - 6) = true /\
   V1.get_background_color img =
   Ok ((red (load img 5 5) + red (load img (xsize img - 6) 5) +
        red (load img 5 (ysize img - 6)) + red (load img (xsize img - 6) (ysize img - 6))) / 4,
       (green (load img 5 5) + green (load img (xsize img - 6) 5) +
        green (load img 5 (ysize img - 6)) + green (load img (xsize img - 6) (ysize img - 6))) / 4,
       (blue (load img 5 5) + blue (load img (xsize img - 6) 5) +
        blue (load img 5 (ysize img - 6)) + blue (load img (xsize img - 6) (ysize img - 6))) / 4)) /\
  (inside img 5 5 && inside img (xsize img - 5) 5 &&
   inside img 5 (ysize img - 5) && inside img (xsize img - 5) (ysize img - 5) = true /\
   V2.get_background_color img =
   Ok ((red (load img 5 5) + red (load img (xsize img - 5) 5) +
        red (load img 5 (ysize img - 5)) + red (load img (xsize img - 5) (ysize img - 5))) / 4,
       (green (load img 5 5) + green (load img (xsize img - 5) 5) +
        green (load img 5 (ysize img - 5)) + green (load img (xsize img - 5) (ysize img - 5))) / 4,
       (blue (load img 5 5) + blue (load img (xsize img - 5) 5) +
        blue (load img 5 (ysize img - 5)) + blue (load img (xsize img - 5) (ysize img - 5))) / 4)).
Proof.
  intros Hw Hh.
  assert (Hget : forall x y, 0 <= x < xsize img -> 0 <= y < ysize img ->
            getpixel img x y = Ok (load img x y)).
  { intros x y Hx Hy. unfold getpixel.
    destruct (Z.ltb_spec x 0); [lia|]. destruct (Z.ltb_spec y 0); [lia|].
    now rewrite (proj2 (inside_true img x y)). }
  assert (Hsum : forall a b c d, fold_right Z.add 0 [a; b; c; d] = a + b + c + d).
  { intros. simpl. lia. }
  split.
  - split.
    + rewrite !andb_true_iff, !inside_true. lia.
    + unfold V1.get_background_color. rewrite !Hget by lia.
      cbn [bind map]. rewrite !Hsum. reflexivity.
  - split.
    + rewrite !andb_true_iff, !inside_true. lia.
    + unfold V2.get_background_color. rewrite !Hget by lia.
      cbn [bind map]. rewrite !Hsum. reflexivity.
Qed.

Lemma background_is_mean_of_corner_samples_witness :
  (10 <= xsize square_sheet /\ 10 <= ysize square_sheet) /\
  V1.get_background_color square_sheet = Ok white_bg /\
  V2.get_background_color square_sheet = Ok white_bg.
Proof.
  split; [split; in_bounds|].
  destruct (background_is_mean_of_corner_samples square_sheet) as [[_ H1] [_ H2]];
    [in_bounds|in_bounds|].
  rewrite H1, H2. split; vm_compute; reflexivity.
Defined.

(** * The fit onto the canvas *)

(** ** Rounding in binary64

    [FloatAxioms] specifies each primitive operation by its counterpart on
    [SpecFloat.spec_float]: the exact quotient or product of the mantissas,
    cut to 53 bits by [binary_round_aux].  The lemmas below bound that cut
    for the normal numbers [fit_to_canvas] computes with. *)

Module Binary64.
Import SpecFloat.

Lemma digits2_pos_spec (p : positive) :
  2 ^ (Z.pos (digits2_pos p) - 1) <= Z.pos p < 2 ^ Z.pos (digits2_pos p).
Proof.
  induction p as [p IH|p IH|]; cbn [digits2_pos].
  - rewrite Pos2Z.inj_succ.
    replace (Z.succ (Z.pos (digits2_pos p)) - 1) with (Z.succ (Z.pos (digits2_pos p) - 1)) by lia.
    rewrite !Z.pow_succ_r by lia. lia.
  - rewrite Pos2Z.inj_succ.
    replace (Z.succ (Z.pos (digits2_pos p)) - 1) with (Z.succ (Z.pos (digits2_pos p) - 1)) by lia.
    rewrite !Z.pow_succ_r by lia. lia.
  - simpl. lia.
Qed.

Lemma digits2_pos_unique (p : positive) (k : Z) :
  2 ^ (k - 1) <= Z.pos p < 2 ^ k -> Z.pos (digits2_pos p) = k.
Proof.
  intros [Hlo Hhi]. pose proof (digits2_pos_spec p) as [Dlo Dhi].
  set (d := Z.pos (digits2_pos p)) in *.
  assert (Hk : 0 < k).
  { destruct (Z_lt_le_dec 0 k) as [|Hn]; [assumption|].
    assert (2 ^ k <= 1).
    { destruct (Z.eq_dec k 0) as [->|]; [simpl; lia|].
      rewrite Z.pow_neg_r by lia. lia. }
    lia. }
  destruct (Z_lt_le_dec d k) as [Hlt|Hge].
  - assert (2 ^ d <= 2 ^ (k - 1)) by (apply Z.pow_le_mono_r; lia). lia.
  - destruct (Z.eq_dec d k) as [|Hne]; [assumption|].
    assert (2 ^ k <= 2 ^ (d - 1)) by (apply Z.pow_le_mono_r; lia). lia.
Qed.

Lemma shr_1_m (mrs : shr_record) :
  0 <= shr_m mrs -> shr_m (shr_1 mrs) = shr_m mrs / 2.
Proof.
  destruct mrs as [m r s]. cbn [shr_m]. intros Hm.
  destruct m as [|[p|p|]|p]; cbn [shr_1 shr_m]; try lia; try reflexivity.
  - apply Z.div_unique with 1; lia.
  - apply Z.div_unique with 0; lia.
Qed.

Lemma iter_shr_1_m (n : positive) (mrs : shr_record) :
  0 <= shr_m mrs ->
  shr_m (iter_pos shr_1 n mrs) = shr_m mrs / 2 ^ Z.pos n.
Proof.
  revert mrs. induction n as [n IH|n IH|]; intros mrs Hm; cbn [iter_pos].
  - assert (H1 : 0 <= shr_m (shr_1 mrs))
      by (rewrite shr_1_m by assumption; apply Z.div_pos; lia).
    assert (H2 : 0 <= shr_m (iter_pos shr_1 n (shr_1 mrs)))
      by (rewrite IH by assumption; apply Z.div_pos; lia).
    rewrite IH, IH, shr_1_m by assumption.
    rewrite !Z.div_div by lia. f_equal.
    replace (Z.pos n~1) with (1 + Z.pos n + Z.pos n) by lia.
    rewrite !Z.pow_add_r by lia. change (2 ^ 1) with 2. ring.
  - assert (H2 : 0 <= shr_m (iter_pos shr_1 n mrs))
      by (rewrite IH by assumption; apply Z.div_pos; lia).
    rewrite IH, IH by assumption.
    rewrite !Z.div_div by lia. f_equal.
    replace (Z.pos n~0) with (Z.pos n + Z.pos n) by lia.
    rewrite !Z.pow_add_r by lia. ring.
  - apply shr_1_m. assumption.
Qed.

Lemma fexp_normal (e : Z) : -1021 <= e -> fexp 53 1024 e = e - 53.
Proof. unfold fexp, emin. lia. Qed.

Lemma shr_record_of_loc_m (m : Z) (l : location) : shr_m (shr_record_of_loc m l) = m.
Proof. destruct l as [|[| |]]; reflexivity. Qed.

Lemma round_nearest_even_near (m : Z) (l : location) :
  round_nearest_even m l = m \/ round_nearest_even m l = m + 1.
Proof.
  destruct l as [|[| |]]; cbn [round_nearest_even]; auto.
  destruct (Z.even m); auto.
Qed.

Lemma shr_fexp_pos (p : positive) (ex : Z) (lx : location) :
  -1021 <= Z.pos (digits2_pos p) + ex ->
  let n := Z.max 0 (Z.pos (digits2_pos p) - 53) in
  exists mrs,
    shr_fexp 53 1024 (Z.pos p) ex lx = (mrs, ex + n) /\
    shr_m mrs = Z.pos p / 2 ^ n /\
    (n = 0 -> mrs = shr_record_of_loc (Z.pos p) lx).
Proof.
  intros He n. unfold shr_fexp. cbn [Zdigits2].
  rewrite fexp_normal by assumption.
  replace (Z.pos (digits2_pos p) + ex - 53 - ex) with (Z.pos (digits2_pos p) - 53) by lia.
  destruct (Z.pos (digits2_pos p) - 53) as [|q|q] eqn:Eq; cbn [shr].
  - exists (shr_record_of_loc (Z.pos p) lx). subst n. cbn [Z.max Z.compare].
    rewrite Z.add_0_r, shr_record_of_loc_m, Z.pow_0_r, Z.div_1_r. auto.
  - exists (iter_pos shr_1 q (shr_record_of_loc (Z.pos p) lx)).
    assert (Hn : n = Z.pos q) by (subst n; lia). rewrite Hn.
    rewrite iter_shr_1_m by (rewrite shr_record_of_loc_m; lia).
    rewrite shr_record_of_loc_m. repeat split. lia.
  - exists (shr_record_of_loc (Z.pos p) lx).
    assert (Hn : n = 0) by (subst n; lia). rewrite Hn.
    rewrite Z.add_0_r, shr_record_of_loc_m, Z.pow_0_r, Z.div_1_r. auto.
Qed.

(** Rounding a mantissa of at least 53 bits in the normal range: the
    result keeps the sign, has 53 bits and is the mantissa cut to 53 bits
    or its successor. *)
Lemma binary_round_aux_pos (sx : bool) (p : positive) (ex : Z) (lx : location) :
  53 <= Z.pos (digits2_pos p) ->
  -1021 <= Z.pos (digits2_pos p) + ex <= 1000 ->
  let n := Z.pos (digits2_pos p) - 53 in
  exists m k,
    binary_round_aux 53 1024 sx (Z.pos p) ex lx = S754_finite sx m (ex + n + k) /\
    Z.pos (digits2_pos m) = 53 /\
    (k = 0 \/ k = 1) /\
    (Z.pos m * 2 ^ k = Z.pos p / 2 ^ n \/ Z.pos m * 2 ^ k = Z.pos p / 2 ^ n + 1) /\
    (lx = loc_Exact -> n = 0 -> m = p /\ k = 0).
Proof.
  intros Hd He n.
  destruct (shr_fexp_pos p ex lx) as (mrs & E1 & Hm & Hrec); [lia|].
  replace (Z.max 0 (Z.pos (digits2_pos p) - 53)) with n in * by (subst n; lia).
  pose proof (digits2_pos_spec p) as [Dlo Dhi].
  set (mt := Z.pos p / 2 ^ n) in *.
  assert (Hn : 0 <= n) by (subst n; lia).
  assert (Hpow : 0 < 2 ^ n) by (apply Z.pow_pos_nonneg; lia).
  assert (Hsplit : 2 ^ (Z.pos (digits2_pos p) - 1) = 2 ^ 52 * 2 ^ n).
  { rewrite <- Z.pow_add_r by lia. f_equal. subst n. lia. }
  assert (Hsplit' : 2 ^ Z.pos (digits2_pos p) = 2 ^ 53 * 2 ^ n).
  { rewrite <- Z.pow_add_r by lia. f_equal. subst n. lia. }
  assert (Hmt : 2 ^ 52 <= mt < 2 ^ 53).
  { subst mt. split.
    - apply Z.div_le_lower_bound; lia.
    - apply Z.div_lt_upper_bound; lia. }
  unfold binary_round_aux. rewrite E1.
  set (mr := round_nearest_even (shr_m mrs) (loc_of_shr_record mrs)).
  assert (Hmr : mr = mt \/ mr = mt + 1).
  { subst mr. rewrite Hm. apply round_nearest_even_near. }
  assert (Hmrpos : 0 < mr) by lia.
  destruct mr as [|r|r] eqn:Er; try lia.
  destruct (Z_lt_le_dec (Z.pos r) (2 ^ 53)) as [Hlt|Hge].
  - assert (Hdr : Z.pos (digits2_pos r) = 53) by (apply digits2_pos_unique; lia).
    destruct (shr_fexp_pos r (ex + n) loc_Exact) as (mrs2 & E2 & Hm2 & Hrec2); [lia|].
    rewrite Hdr in E2, Hm2, Hrec2.
    change (Z.max 0 (53 - 53)) with 0 in *.
    rewrite E2, (Hrec2 eq_refl). cbn [shr_record_of_loc shr_m].
    replace (ex + n + 0 <=? 1024 - 53) with true by (symmetry; apply Z.leb_le; lia).
    exists r, 0. rewrite Z.pow_0_r, Z.mul_1_r.
    split; [reflexivity|]. split; [assumption|]. split; [auto|]. split; [assumption|].
    intros -> Hn0. specialize (Hrec Hn0). subst mrs.
    split; [|reflexivity]. revert Er. unfold mr. cbn. congruence.
  - assert (Hr : Z.pos r = 2 ^ 53) by lia.
    assert (Hdr : Z.pos (digits2_pos r) = 54) by (apply digits2_pos_unique; lia).
    destruct (shr_fexp_pos r (ex + n) loc_Exact) as (mrs2 & E2 & Hm2 & _); [lia|].
    rewrite Hdr in E2, Hm2. change (Z.max 0 (54 - 53)) with 1 in *.
    rewrite E2, Hm2, Hr. change (2 ^ 53 / 2 ^ 1) with (Z.pos (2 ^ 52)).
    replace (ex + n + 1 <=? 1024 - 53) with true by (symmetry; apply Z.leb_le; lia).
    exists (2 ^ 52)%positive, 1.
    split; [reflexivity|]. split; [reflexivity|]. split; [auto|].
    split; [right; change (Z.pos (2 ^ 52) * 2 ^ 1) with (2 ^ 53); lia|].
    intros -> Hn0. specialize (Hrec Hn0). subst mrs.
    exfalso. revert Er. unfold mr. cbn. intros Er. injection Er as ->. subst mt.
    rewrite Hn0, Z.pow_0_r, Z.div_1_r in Hmt. lia.
Qed.

Lemma pow2_pos (e : Z) : (0 < powerRZ 2 e)%R.
Proof. apply powerRZ_lt. lra. Qed.

Lemma pow2_add (a b : Z) : powerRZ 2 (a + b) = (powerRZ 2 a * powerRZ 2 b)%R.
Proof. apply powerRZ_add. lra. Qed.

Lemma pow2_IZR (k : Z) : 0 <= k -> powerRZ 2 k = IZR (2 ^ k).
Proof.
  intros Hk. destruct k as [|p|p]; try lia.
  - reflexivity.
  - cbn [powerRZ]. rewrite <- (positive_nat_Z p), <- pow_IZR. reflexivity.
Qed.

Lemma pow2_le (a b : Z) : a <= b -> (powerRZ 2 a <= powerRZ 2 b)%R.
Proof.
  intros H. replace b with (a + (b - a)) by lia. rewrite pow2_add.
  rewrite (pow2_IZR (b - a)) by lia.
  assert (1 <= 2 ^ (b - a)) by (apply Z.lt_pred_le, Z.pow_pos_nonneg; lia).
  assert (1 <= IZR (2 ^ (b - a)))%R by (apply IZR_le; assumption).
  pose proof (pow2_pos a). nra.
Qed.

(** A quantity whose integer part is [p], cut to 53 digits. *)
Lemma cut_interval (p n ex : Z) (y : R) :
  0 <= n -> (IZR p <= y <= IZR p + 1)%R ->
  (IZR (p / 2 ^ n) * powerRZ 2 (ex + n) <= y * powerRZ 2 ex
   <= IZR (p / 2 ^ n + 1) * powerRZ 2 (ex + n))%R.
Proof.
  intros Hn [Hlo Hhi].
  assert (Hpow : 0 < 2 ^ n) by (apply Z.pow_pos_nonneg; lia).
  pose proof (Z.div_mod p (2 ^ n) ltac:(lia)) as Hdiv.
  pose proof (Z.mod_pos_bound p (2 ^ n) Hpow) as Hmod.
  set (mt := p / 2 ^ n) in *.
  rewrite (Z.add_comm ex n), pow2_add, (pow2_IZR n) by assumption.
  pose proof (pow2_pos ex) as Hex.
  assert (H1 : (IZR mt * IZR (2 ^ n) <= IZR p)%R)
    by (rewrite <- mult_IZR; apply IZR_le; lia).
  assert (H2 : (IZR p + 1 <= IZR (mt + 1) * IZR (2 ^ n))%R)
    by (rewrite <- mult_IZR, <- plus_IZR; apply IZR_le; lia).
  split.
  - rewrite <- Rmult_assoc. apply Rmult_le_compat_r; lra.
  - rewrite <- Rmult_assoc. apply Rmult_le_compat_r; lra.
Qed.

Lemma near_of_interval (mt : Z) (pw v x : R) :
  2 ^ 52 <= mt -> (0 < pw)%R ->
  (IZR mt * pw <= x <= IZR (mt + 1) * pw)%R ->
  (IZR mt * pw <= v <= IZR (mt + 1) * pw)%R ->
  near v x.
Proof.
  intros Hmt Hpw [Xlo Xhi] [Vlo Vhi]. unfold near, ulp_bound.
  rewrite plus_IZR in *.
  assert (Hm : (4503599627370496 <= IZR mt)%R) by (apply IZR_le; exact Hmt).
  assert (Hp : (pw <= x * / 4503599627370496)%R).
  { apply Rle_trans with (IZR mt * pw * / 4503599627370496)%R.
    - replace (IZR mt * pw * / 4503599627370496)%R
        with (pw * (IZR mt * / 4503599627370496))%R by field.
      rewrite <- (Rmult_1_r pw) at 1. apply Rmult_le_compat_l; lra.
    - apply Rmult_le_compat_r; lra. }
  split; lra.
Qed.

(** The rounding of a positive quantity in the normal range. *)
Lemma round_near (p : positive) (ex : Z) (lx : location) (y : R) :
  53 <= Z.pos (digits2_pos p) ->
  -1021 <= Z.pos (digits2_pos p) + ex <= 1000 ->
  (IZR (Z.pos p) <= y <= IZR (Z.pos p) + 1)%R ->
  exists m e,
    binary_round_aux 53 1024 false (Z.pos p) ex lx = S754_finite false m e /\
    Z.pos (digits2_pos m) = 53 /\
    ex + (Z.pos (digits2_pos p) - 53) <= e <= ex + (Z.pos (digits2_pos p) - 53) + 1 /\
    near (IZR (Z.pos m) * powerRZ 2 e) (y * powerRZ 2 ex).
Proof.
  intros Hd He Hy.
  destruct (binary_round_aux_pos false p ex lx Hd He) as (m & j & E & Hdm & Hj & Hval & _).
  set (n := Z.pos (digits2_pos p) - 53) in *.
  exists m, (ex + n + j). split; [exact E|]. split; [exact Hdm|]. split; [lia|].
  assert (Hn : 0 <= n) by (subst n; lia).
  pose proof (digits2_pos_spec p) as [Dlo Dhi].
  assert (Hpow : 0 < 2 ^ n) by (apply Z.pow_pos_nonneg; lia).
  assert (Hmt : 2 ^ 52 <= Z.pos p / 2 ^ n).
  { apply Z.div_le_lower_bound; [lia|].
    replace (2 ^ n * 2 ^ 52) with (2 ^ (Z.pos (digits2_pos p) - 1)); [lia|].
    rewrite <- Z.pow_add_r by lia. f_equal. subst n. lia. }
  apply near_of_interval with (mt := Z.pos p / 2 ^ n) (pw := powerRZ 2 (ex + n));
    [exact Hmt|apply pow2_pos|apply cut_interval; assumption|].
  rewrite (pow2_add (ex + n) j), (pow2_IZR j) by lia.
  replace (IZR (Z.pos m) * (powerRZ 2 (ex + n) * IZR (2 ^ j)))%R
    with (IZR (Z.pos m * 2 ^ j) * powerRZ 2 (ex + n))%R
    by (rewrite mult_IZR; ring).
  pose proof (pow2_pos (ex + n)) as Hpw.
  destruct Hval as [-> | ->].
  - split; [lra|]. apply Rmult_le_compat_r; [lra|]. apply IZR_le. lia.
  - split; [|lra]. apply Rmult_le_compat_r; [lra|]. apply IZR_le. lia.
Qed.

Lemma iter_xO (p q : positive) : Z.pos (Pos.iter xO p q) = Z.pos p * 2 ^ Z.pos q.
Proof.
  induction q as [|q IH] using Pos.peano_ind.
  - cbn [Pos.iter]. lia.
  - rewrite Pos.iter_succ, Pos2Z.inj_succ, Z.pow_succ_r by lia.
    rewrite Pos2Z.inj_xO, IH. ring.
Qed.

Lemma shl_align_spec (mx : positive) (ex ex' : Z) :
  ex' <= ex ->
  exists mz, shl_align mx ex ex' = (mz, ex') /\ Z.pos mz = Z.pos mx * 2 ^ (ex - ex').
Proof.
  intros H. unfold shl_align. destruct (ex' - ex) as [|q|q] eqn:E; try lia.
  - exists mx. replace ex' with ex by lia. rewrite Z.sub_diag, Z.pow_0_r. split; [reflexivity|lia].
  - exists (Pos.iter xO mx q). split; [reflexivity|].
    rewrite iter_xO. f_equal. f_equal. lia.
Qed.

(** [float(z)] is exact below [2 ^ 53]. *)
Lemma float_of_int_normal (z : Z) :
  0 < z < 2 ^ 53 ->
  normal 52 (float_of_int z) /\ B2R (float_of_int z) = IZR z.
Proof.
  intros Hz. unfold normal, B2R, float_of_int.
  replace (z <? 0) with false by (symmetry; apply Z.ltb_ge; lia).
  rewrite FloatAxioms.of_uint63_spec, Uint63.of_Z_spec.
  rewrite Z.mod_small by (change Uint63.wB with (2 ^ 63); lia).
  destruct z as [|p|p]; try lia.
  cbn [binary_normalize]. unfold binary_round.
  change FloatOps.prec with 53. change FloatOps.emax with 1024.
  pose proof (digits2_pos_spec p) as [Dlo Dhi].
  set (d := Z.pos (digits2_pos p)) in *.
  assert (Hd : 1 <= d <= 53).
  { split; [subst d; lia|].
    destruct (Z_lt_le_dec 53 d) as [Hgt|]; [|assumption].
    assert (2 ^ 53 <= 2 ^ (d - 1)) by (apply Z.pow_le_mono_r; lia). lia. }
  rewrite fexp_normal by lia. replace (d + 0 - 53) with (d - 53) by lia.
  destruct (shl_align_spec p 0 (d - 53)) as (mz & -> & Hmz); [lia|].
  replace (0 - (d - 53)) with (53 - d) in Hmz by lia.
  assert (Hsplit : 2 ^ 52 = 2 ^ (d - 1) * 2 ^ (53 - d)).
  { rewrite <- Z.pow_add_r by lia. f_equal. lia. }
  assert (Hsplit' : 2 ^ 53 = 2 ^ d * 2 ^ (53 - d)).
  { rewrite <- Z.pow_add_r by lia. f_equal. lia. }
  assert (Hpow : 0 < 2 ^ (53 - d)) by (apply Z.pow_pos_nonneg; lia).
  assert (Hdz : Z.pos (digits2_pos mz) = 53).
  { apply digits2_pos_unique. change (53 - 1) with 52. rewrite Hmz, Hsplit, Hsplit'.
    split; [apply Z.mul_le_mono_nonneg_r; lia|apply Z.mul_lt_mono_pos_r; lia]. }
  destruct (binary_round_aux_pos false mz (d - 53) loc_Exact) as (m & j & E & Hdm & _ & _ & Hex);
    [lia|lia|].
  destruct (Hex eq_refl) as [-> ->]; [lia|].
  rewrite E, Hdz. replace (d - 53 + (53 - 53) + 0) with (d - 53) by lia.
  split.
  - exists mz, (d - 53). split; [reflexivity|]. split; [assumption|lia].
  - cbn [SF2R]. rewrite Hmz, mult_IZR, <- (pow2_IZR (53 - d)) by lia.
    rewrite Rmult_assoc, <- pow2_add. replace (53 - d + (d - 53)) with 0 by lia.
    cbn [powerRZ]. ring.
Qed.

Lemma SFdiv_core_normal (m1 m2 : positive) (e1 e2 : Z) :
  Z.pos (digits2_pos m1) = 53 -> Z.pos (digits2_pos m2) = 53 ->
  -1021 <= e1 - e2 ->
  SFdiv_core_binary 53 1024 (Z.pos m1) e1 (Z.pos m2) e2 =
  (Z.pos m1 * 2 ^ 53 / Z.pos m2, e1 - e2 - 53,
   new_location (Z.pos m2) ((Z.pos m1 * 2 ^ 53) mod Z.pos m2)).
Proof.
  intros H1 H2 He. unfold SFdiv_core_binary. cbn [Zdigits2]. rewrite H1, H2.
  replace (53 + e1 - (53 + e2)) with (e1 - e2) by lia.
  rewrite fexp_normal by assumption.
  replace (Z.min (e1 - e2 - 53) (e1 - e2)) with (e1 - e2 - 53) by lia.
  replace (e1 - e2 - (e1 - e2 - 53)) with 53 by lia.
  rewrite Z.shiftl_mul_pow2 by lia.
  unfold Z.div, Z.modulo.
  destruct (Z.div_eucl (Z.pos m1 * 2 ^ 53) (Z.pos m2)) as [q r]. reflexivity.
Qed.

(** [a / b] on normal floats, up to one unit in the last place. *)
Lemma div_near (a b : PrimFloat.float) (k1 k2 : Z) :
  normal k1 a -> normal k2 b -> k1 + k2 <= 800 ->
  normal (k1 + k2 + 53) (PrimFloat.div a b) /\
  near (B2R (PrimFloat.div a b)) (B2R a / B2R b).
Proof.
  intros (m1 & e1 & Ea & Hd1 & He1) (m2 & e2 & Eb & Hd2 & He2) Hk.
  unfold normal, B2R. rewrite FloatAxioms.div_spec, Ea, Eb.
  unfold FloatAxioms.SF64div. change FloatOps.prec with 53. change FloatOps.emax with 1024.
  cbn [SFdiv SF2R xorb]. rewrite SFdiv_core_normal by (assumption || lia).
  pose proof (digits2_pos_spec m1) as [D1lo D1hi].
  pose proof (digits2_pos_spec m2) as [D2lo D2hi].
  rewrite Hd1 in D1lo, D1hi. rewrite Hd2 in D2lo, D2hi.
  change (53 - 1) with 52 in *.
  set (num := Z.pos m1 * 2 ^ 53) in *.
  pose proof (Z.div_mod num (Z.pos m2) ltac:(lia)) as Hdiv.
  pose proof (Z.mod_pos_bound num (Z.pos m2) ltac:(lia)) as Hmod.
  assert (Hq : 2 ^ 52 <= num / Z.pos m2 < 2 ^ 54).
  { split.
    - apply Z.div_le_lower_bound; [lia|]. subst num. nia.
    - apply Z.div_lt_upper_bound; [lia|]. subst num.
      change (2 ^ 54) with (2 * 2 ^ 53). nia. }
  destruct (num / Z.pos m2) as [|q|q] eqn:Eq; try lia.
  assert (Hdq : 53 <= Z.pos (digits2_pos q) <= 54).
  { pose proof (digits2_pos_spec q) as [Qlo Qhi].
    set (d := Z.pos (digits2_pos q)) in *.
    split.
    - destruct (Z_lt_le_dec d 53) as [Hlt|]; [|assumption].
      assert (2 ^ d <= 2 ^ 52) by (apply Z.pow_le_mono_r; lia). lia.
    - destruct (Z_lt_le_dec 54 d) as [Hgt|]; [|assumption].
      assert (2 ^ 54 <= 2 ^ (d - 1)) by (apply Z.pow_le_mono_r; lia). lia. }
  set (y := (IZR num / IZR (Z.pos m2))%R).
  assert (Hm2 : (0 < IZR (Z.pos m2))%R) by (apply IZR_lt; lia).
  assert (Hy : (IZR (Z.pos q) <= y <= IZR (Z.pos q) + 1)%R).
  { subst y.
    assert (Hnum : (IZR num = IZR (Z.pos m2) * IZR (Z.pos q) + IZR (num mod Z.pos m2))%R)
      by (rewrite <- mult_IZR, <- plus_IZR; f_equal; exact Hdiv).
    rewrite Hnum.
    assert (0 <= IZR (num mod Z.pos m2) <= IZR (Z.pos m2))%R
      by (split; apply IZR_le; lia).
    split.
    - apply Rmult_le_reg_r with (IZR (Z.pos m2)); [assumption|].
      unfold Rdiv. rewrite Rmult_assoc, Rinv_l by lra. lra.
    - apply Rmult_le_reg_r with (IZR (Z.pos m2)); [assumption|].
      unfold Rdiv. rewrite Rmult_assoc, Rinv_l by lra. lra. }
  destruct (round_near q (e1 - e2 - 53)
              (new_location (Z.pos m2) (num mod Z.pos m2)) y)
    as (m & e & E & Hdm & He & Hnear); [lia|lia|assumption|].
  rewrite E. cbn [SF2R]. split.
  - exists m, e. split; [reflexivity|]. split; [assumption|lia].
  - replace (IZR (Z.pos m1) * powerRZ 2 e1 / (IZR (Z.pos m2) * powerRZ 2 e2))%R
      with (y * powerRZ 2 (e1 - e2 - 53))%R; [exact Hnear|].
    subst y num. rewrite mult_IZR, <- (pow2_IZR 53) by lia.
    replace e1 with (53 + e2 + (e1 - e2 - 53)) at 2 by lia.
    rewrite !pow2_add.
    pose proof (pow2_pos e2). pose proof (pow2_pos 53).
    pose proof (pow2_pos (e1 - e2 - 53)). field. split; lra.
Qed.

(** [a * b] on normal floats, up to one unit in the last place. *)
Lemma mul_near (a b : PrimFloat.float) (k1 k2 : Z) :
  normal k1 a -> normal k2 b -> k1 + k2 <= 800 ->
  normal (k1 + k2 + 54) (PrimFloat.mul a b) /\
  near (B2R (PrimFloat.mul a b)) (B2R a * B2R b).
Proof.
  intros (m1 & e1 & Ea & Hd1 & He1) (m2 & e2 & Eb & Hd2 & He2) Hk.
  unfold normal, B2R. rewrite FloatAxioms.mul_spec, Ea, Eb.
  unfold FloatAxioms.SF64mul. change FloatOps.prec with 53. change FloatOps.emax with 1024.
  cbn [SFmul SF2R xorb].
  pose proof (digits2_pos_spec m1) as [D1lo D1hi].
  pose proof (digits2_pos_spec m2) as [D2lo D2hi].
  rewrite Hd1 in D1lo, D1hi. rewrite Hd2 in D2lo, D2hi.
  change (53 - 1) with 52 in *.
  assert (Hp : 2 ^ 104 <= Z.pos (m1 * m2) < 2 ^ 106).
  { assert (0 < 2 ^ 52) by (apply Z.pow_pos_nonneg; lia).
    rewrite Pos2Z.inj_mul. change (2 ^ 104) with (2 ^ 52 * 2 ^ 52).
    change (2 ^ 106) with (2 ^ 53 * 2 ^ 53).
    split; [apply Z.mul_le_mono_nonneg; lia|apply Z.mul_lt_mono_nonneg; lia]. }
  assert (Hdp : 105 <= Z.pos (digits2_pos (m1 * m2)) <= 106).
  { pose proof (digits2_pos_spec (m1 * m2)) as [Qlo Qhi].
    set (d := Z.pos (digits2_pos (m1 * m2))) in *.
    split.
    - destruct (Z_lt_le_dec d 105) as [Hlt|]; [|assumption].
      assert (2 ^ d <= 2 ^ 104) by (apply Z.pow_le_mono_r; lia). lia.
    - destruct (Z_lt_le_dec 106 d) as [Hgt|]; [|assumption].
      assert (2 ^ 106 <= 2 ^ (d - 1)) by (apply Z.pow_le_mono_r; lia). lia. }
  destruct (round_near (m1 * m2) (e1 + e2) loc_Exact (IZR (Z.pos (m1 * m2))))
    as (m & e & E & Hdm & He & Hnear); [lia|lia|lra|].
  rewrite E. cbn [SF2R]. split.
  - exists m, e. split; [reflexivity|]. split; [assumption|lia].
  - replace (IZR (Z.pos m1) * powerRZ 2 e1 * (IZR (Z.pos m2) * powerRZ 2 e2))%R
      with (IZR (Z.pos (m1 * m2)) * powerRZ 2 (e1 + e2))%R; [exact Hnear|].
    rewrite Pos2Z.inj_mul, mult_IZR, pow2_add. ring.
Qed.

Lemma normal_pos (k : Z) (a : PrimFloat.float) : normal k a -> (0 < B2R a)%R.
Proof.
  intros (m & e & E & _ & _). unfold B2R. rewrite E. cbn [SF2R].
  apply Rmult_lt_0_compat; [apply IZR_lt; lia|apply pow2_pos].
Qed.

Lemma SFltb_normal (m1 m2 : positive) (e1 e2 : Z) :
  Z.pos (digits2_pos m1) = 53 -> Z.pos (digits2_pos m2) = 53 ->
  if SFltb (S754_finite false m1 e1) (S754_finite false m2 e2)
  then (IZR (Z.pos m1) * powerRZ 2 e1 <= IZR (Z.pos m2) * powerRZ 2 e2)%R
  else (IZR (Z.pos m2) * powerRZ 2 e2 <= IZR (Z.pos m1) * powerRZ 2 e1)%R.
Proof.
  intros Hd1 Hd2.
  pose proof (digits2_pos_spec m1) as [D1lo D1hi].
  pose proof (digits2_pos_spec m2) as [D2lo D2hi].
  rewrite Hd1 in D1lo, D1hi. rewrite Hd2 in D2lo, D2hi.
  change (53 - 1) with 52 in *.
  assert (Hstep : forall (ma mb : positive) (ea eb : Z),
            Z.pos ma < 2 ^ 53 -> 2 ^ 52 <= Z.pos mb -> ea < eb ->
            (IZR (Z.pos ma) * powerRZ 2 ea <= IZR (Z.pos mb) * powerRZ 2 eb)%R).
  { intros ma mb ea eb Ha Hb Hlt.
    pose proof (pow2_le (ea + 1) eb ltac:(lia)) as Hle.
    rewrite pow2_add in Hle. change (powerRZ 2 1) with (2 * 1)%R in Hle.
    pose proof (pow2_pos ea). pose proof (pow2_pos eb).
    assert (IZR (Z.pos ma) <= 9007199254740992)%R by (apply IZR_le; lia).
    assert (4503599627370496 <= IZR (Z.pos mb))%R by (apply IZR_le; exact Hb).
    apply Rle_trans with (9007199254740992 * powerRZ 2 ea)%R;
      [apply Rmult_le_compat_r; lra|].
    apply Rle_trans with (4503599627370496 * powerRZ 2 eb)%R;
      [lra|apply Rmult_le_compat_r; lra]. }
  unfold SFltb. cbn [SFcompare].
  destruct (Z.compare_spec e1 e2) as [->|Hlt|Hgt].
  - change (Pos.compare_cont Eq m1 m2) with (Pos.compare m1 m2).
    pose proof (pow2_pos e2).
    destruct (Pos.compare_spec m1 m2) as [->|Hm|Hm].
    + lra.
    + apply Rmult_le_compat_r; [lra|]. apply IZR_le. lia.
    + apply Rmult_le_compat_r; [lra|]. apply IZR_le. lia.
  - apply Hstep; assumption.
  - apply Hstep; assumption.
Qed.

(** [min(a, b)] returns one of its arguments, and the smaller value. *)
Lemma min2_normal (a b : PrimFloat.float) (k : Z) :
  normal k a -> normal k b ->
  (min2 a b = a \/ min2 a b = b) /\
  (B2R (min2 a b) <= B2R a)%R /\ (B2R (min2 a b) <= B2R b)%R.
Proof.
  intros (m1 & e1 & Ea & Hd1 & He1) (m2 & e2 & Eb & Hd2 & He2).
  unfold min2. rewrite FloatAxioms.ltb_spec, Eb, Ea.
  pose proof (SFltb_normal m2 m1 e2 e1 Hd2 Hd1) as H.
  destruct (SFltb (S754_finite false m2 e2) (S754_finite false m1 e1)).
  - split; [auto|]. unfold B2R. rewrite Ea, Eb. cbn [SF2R]. lra.
  - split; [auto|]. unfold B2R. rewrite Ea, Eb. cbn [SF2R]. lra.
Qed.

(** [int(f)] of a positive float is the floor of its value. *)
Lemma int_of_float_floor (f : PrimFloat.float) (k : Z) :
  normal k f ->
  exists n, int_of_float f = Ok n /\ (IZR n <= B2R f < IZR n + 1)%R.
Proof.
  intros (m & e & E & _ & _). unfold int_of_float, B2R. rewrite E. cbn [SF2R].
  destruct (Z.leb_spec 0 e) as [He|He].
  - exists (Z.pos m * 2 ^ e). split; [reflexivity|].
    rewrite mult_IZR, <- pow2_IZR by assumption. lra.
  - exists (Z.shiftr (Z.pos m) (- e)). split; [reflexivity|].
    rewrite Z.shiftr_div_pow2 by lia.
    assert (Hpow : 0 < 2 ^ (- e)) by (apply Z.pow_pos_nonneg; lia).
    pose proof (Z.div_mod (Z.pos m) (2 ^ (- e)) ltac:(lia)) as Hdiv.
    pose proof (Z.mod_pos_bound (Z.pos m) (2 ^ (- e)) Hpow) as Hmod.
    set (q := Z.pos m / 2 ^ (- e)) in *.
    assert (Hinv : (powerRZ 2 e * IZR (2 ^ (- e)) = 1)%R).
    { rewrite <- pow2_IZR, <- pow2_add by lia.
      replace (e + - e) with 0 by lia. reflexivity. }
    pose proof (pow2_pos e) as Hpe.
    assert (H1 : (IZR q * IZR (2 ^ (- e)) <= IZR (Z.pos m))%R)
      by (rewrite <- mult_IZR; apply IZR_le; lia).
    assert (H2 : (IZR (Z.pos m) + 1 <= (IZR q + 1) * IZR (2 ^ (- e)))%R).
    { assert (H : (IZR (Z.pos m + 1) <= IZR ((q + 1) * 2 ^ (- e)))%R)
        by (apply IZR_le; lia).
      rewrite mult_IZR, !plus_IZR in H. exact H. }
    split.
    + replace (IZR q) with (IZR q * IZR (2 ^ (- e)) * powerRZ 2 e)%R
        by (rewrite Rmult_assoc, (Rmult_comm (IZR (2 ^ (- e)))), Hinv; ring).
      apply Rmult_le_compat_r; lra.
    + replace (IZR q + 1)%R with ((IZR q + 1) * IZR (2 ^ (- e)) * powerRZ 2 e)%R
        by (rewrite Rmult_assoc, (Rmult_comm (IZR (2 ^ (- e)))), Hinv; ring).
      apply Rmult_lt_compat_r; lra.
Qed.

End Binary64.
Import Binary64.

(** ** The truncated products and the exact floors *)

Lemma upper_chain (e a t v : R) :
  (0 < e)%R -> (t <= a * (1 + e))%R -> (v <= t * (1 + e))%R ->
  (v <= a * (1 + (2 * e + e * e)))%R.
Proof.
  intros He Ht Hv. apply Rle_trans with (t * (1 + e))%R; [assumption|].
  replace (a * (1 + (2 * e + e * e)))%R with (a * (1 + e) * (1 + e))%R by ring.
  apply Rmult_le_compat_r; lra.
Qed.

Lemma lower_chain (e a t v : R) :
  (0 < e < 1)%R -> (0 <= a)%R -> (a * (1 - e) <= t)%R -> (t * (1 - e) <= v)%R ->
  (a * (1 - (2 * e + e * e)) <= v)%R.
Proof.
  intros He Ha Ht Hv. apply Rle_trans with (t * (1 - e))%R; [|assumption].
  apply Rle_trans with (a * (1 - e) * (1 - e))%R; [|apply Rmult_le_compat_r; lra].
  assert (0 <= a * (e * e))%R by (apply Rmult_le_pos; [assumption|apply Rmult_le_pos; lra]).
  lra.
Qed.

(** The truncated product [int (w * scale)] against the exact floor
    [min aw (floor (w * ah / h))], for a scale within one unit in the last
    place of the smaller ratio. *)
Lemma scaled_floor (w h aw ah n : Z) (sc v : R) :
  0 < w < 2 ^ 31 -> 0 < h < 2 ^ 31 -> 0 < aw < 2 ^ 31 -> 0 < ah < 2 ^ 31 ->
  (sc * IZR w <= IZR aw * (1 + ulp_bound))%R ->
  (sc * IZR h <= IZR ah * (1 + ulp_bound))%R ->
  (IZR aw * (1 - ulp_bound) <= sc * IZR w \/
   IZR ah * (1 - ulp_bound) <= sc * IZR h)%R ->
  near v (IZR w * sc) -> (IZR n <= v < IZR n + 1)%R ->
  Z.min aw (w * ah / h) - 1 <= n <= Z.min aw (w * ah / h) + 1 /\
  n <= aw /\
  (aw * h <= 2 ^ 50 -> n <= Z.min aw (w * ah / h)).
Proof.
  intros Hw Hh Haw Hah Sw Sh Slo [Vlo Vhi] [Nlo Nhi].
  change (2 ^ 31) with 2147483648 in *. change (2 ^ 50) with 1125899906842624.
  assert (Rw : (1 <= IZR w <= 2147483648)%R) by (split; apply IZR_le; lia).
  assert (Rh : (1 <= IZR h <= 2147483648)%R) by (split; apply IZR_le; lia).
  assert (Raw : (1 <= IZR aw <= 2147483647)%R) by (split; apply IZR_le; lia).
  assert (Rah : (1 <= IZR ah <= 2147483647)%R) by (split; apply IZR_le; lia).
  set (eps := ulp_bound) in *.
  assert (He : (0 < eps < 1)%R) by (unfold eps, ulp_bound; lra).
  assert (He1 : (eps * 4503599627370496 = 1)%R) by (unfold eps, ulp_bound; lra).
  set (dl := (2 * eps + eps * eps)%R).
  assert (Hee : (eps * eps <= eps)%R).
  { rewrite <- (Rmult_1_r eps) at 3. apply Rmult_le_compat_l; lra. }
  assert (Hdl : (0 < dl)%R) by (unfold dl; assert (0 <= eps * eps)%R by (apply Rmult_le_pos; lra); lra).
  assert (Hdl1 : (dl * 1125899906842624 < 1)%R) by (unfold dl; lra).
  clearbody eps. 
  (* the product against the available width *)
  assert (Vaw : (v <= IZR aw * (1 + dl))%R)
    by (apply upper_chain with (t := (IZR w * sc)%R); lra).
  assert (Hawdl : (IZR aw * dl <= 2147483647 * dl)%R) by (apply Rmult_le_compat_r; lra).
  assert (Hnaw : n <= aw).
  { assert (H : n < aw + 1); [|lia]. apply lt_IZR. rewrite plus_IZR. lra. }
  (* the product against the other ratio *)
  set (N := w * ah).
  assert (RN : IZR N = (IZR w * IZR ah)%R) by (unfold N; apply mult_IZR).
  assert (VN : (v * IZR h <= IZR N * (1 + dl))%R).
  { apply upper_chain with (t := (IZR w * sc * IZR h)%R); [lra| |].
    - rewrite RN. replace (IZR w * sc * IZR h)%R with (IZR w * (sc * IZR h))%R by ring.
      rewrite Rmult_assoc. apply Rmult_le_compat_l; lra.
    - replace (IZR w * sc * IZR h * (1 + eps))%R with (IZR w * sc * (1 + eps) * IZR h)%R by ring.
      apply Rmult_le_compat_r; lra. }
  assert (HN0 : (0 <= IZR N)%R) by (rewrite RN; apply Rmult_le_pos; lra).
  assert (Vlow : (IZR aw * (1 - dl) <= v \/ IZR N * (1 - dl) <= v * IZR h)%R).
  { destruct Slo as [Slo|Slo].
    - left. apply lower_chain with (t := (IZR w * sc)%R); lra.
    - right. apply lower_chain with (t := (IZR w * sc * IZR h)%R); [lra|lra| |].
      + rewrite RN. replace (IZR w * sc * IZR h)%R with (IZR w * (sc * IZR h))%R by ring.
        rewrite Rmult_assoc. apply Rmult_le_compat_l; lra.
      + replace (IZR w * sc * IZR h * (1 - eps))%R with (IZR w * sc * (1 - eps) * IZR h)%R by ring.
        apply Rmult_le_compat_r; lra. }
  pose proof (Z.div_mod N h ltac:(lia)) as Hdiv.
  pose proof (Z.mod_pos_bound N h ltac:(lia)) as Hmod.
  set (F := N / h) in *.
  assert (RF : (IZR h * IZR F <= IZR N <= IZR h * IZR F + IZR h - 1)%R).
  { split.
    - rewrite <- mult_IZR. apply IZR_le. lia.
    - replace (IZR h * IZR F + IZR h - 1)%R with (IZR (h * F + h - 1))
        by (rewrite minus_IZR, plus_IZR, mult_IZR; reflexivity).
      apply IZR_le. lia. }
  assert (Hawh : (IZR aw * IZR h * dl <= 2147483647 * dl * IZR h)%R).
  { replace (IZR aw * IZR h * dl)%R with (IZR aw * dl * IZR h)%R by ring.
    apply Rmult_le_compat_r; lra. }
  assert (Hdh : (2147483647 * dl * IZR h < IZR h)%R).
  { rewrite <- (Rmult_1_l (IZR h)) at 2. apply Rmult_lt_compat_r; lra. }
  destruct (Z_le_gt_dec (aw * h) N) as [Hcase|Hcase].
  - (* the width ratio is the smaller one *)
    assert (HF : aw <= F) by (apply Z.div_le_lower_bound; lia).
    rewrite Z.min_l by assumption.
    assert (RC : (IZR aw * IZR h <= IZR N)%R)
      by (rewrite <- mult_IZR; apply IZR_le; assumption).
    assert (Hlow : (IZR aw * (1 - dl) <= v)%R).
    { destruct Vlow as [|Vl]; [assumption|].
      apply Rmult_le_reg_r with (IZR h); [lra|].
      apply Rle_trans with (IZR N * (1 - dl))%R; [|assumption].
      replace (IZR aw * (1 - dl) * IZR h)%R with (IZR aw * IZR h * (1 - dl))%R by ring.
      apply Rmult_le_compat_r; lra. }
    assert (aw - 2 < n); [|lia].
    apply lt_IZR. rewrite minus_IZR. lra.
  - (* the height ratio is the smaller one *)
    assert (HF : F < aw) by (apply Z.div_lt_upper_bound; lia).
    rewrite Z.min_r by lia.
    assert (RC : (IZR N <= IZR aw * IZR h - 1)%R).
    { replace (IZR aw * IZR h - 1)%R with (IZR (aw * h - 1))
        by (rewrite minus_IZR, mult_IZR; reflexivity).
      apply IZR_le. lia. }
    assert (Hlow : (IZR N * (1 - dl) <= v * IZR h)%R).
    { destruct Vlow as [Vl|]; [|assumption].
      apply Rle_trans with (IZR aw * (1 - dl) * IZR h)%R;
        [|apply Rmult_le_compat_r; lra].
      replace (IZR aw * (1 - dl) * IZR h)%R with (IZR aw * IZR h * (1 - dl))%R by ring.
      apply Rmult_le_compat_r; lra. }
    assert (HNdl : (IZR N * dl <= IZR aw * IZR h * dl)%R)
      by (apply Rmult_le_compat_r; lra).
    assert (Hn1 : F - 2 < n).
    { apply lt_IZR. rewrite minus_IZR.
      apply Rmult_lt_reg_r with (IZR h); [lra|].
      assert ((IZR n + 1) * IZR h > v * IZR h)%R by (apply Rmult_lt_compat_r; lra).
      lra. }
    assert (Hn2 : n < F + 2).
    { apply lt_IZR. rewrite plus_IZR.
      apply Rmult_lt_reg_r with (IZR h); [lra|].
      assert (IZR n * IZR h <= v * IZR h)%R by (apply Rmult_le_compat_r; lra).
      lra. }
    split; [lia|]. split; [assumption|].
    intros Htight.
    assert (Rt : (IZR aw * IZR h <= 1125899906842624)%R)
      by (rewrite <- mult_IZR; apply IZR_le; assumption).
    assert (Hsmall' : (IZR aw * IZR h * dl <= 1125899906842624 * dl)%R)
      by (apply Rmult_le_compat_r; lra).
    assert (n < F + 1); [|lia].
    apply lt_IZR. rewrite plus_IZR.
    apply Rmult_lt_reg_r with (IZR h); [lra|].
    assert (IZR n * IZR h <= v * IZR h)%R by (apply Rmult_le_compat_r; lra).
    lra.
Qed.

Lemma Qfloor_scaled (w a h : Z) :
  0 < h -> Qfloor (inject_Z w * (inject_Z a / inject_Z h)) = w * a / h.
Proof.
  intros Hh. destruct h as [|p|p]; try lia.
  unfold Qfloor, Qdiv, Qmult, Qinv, inject_Z. cbn [Qnum Qden].
  f_equal; lia.
Qed.

Lemma ratio_le (a w b h : Z) :
  0 < w -> 0 < h -> a * h <= b * w ->
  (inject_Z a / inject_Z w <= inject_Z b / inject_Z h)%Q.
Proof.
  intros Hw Hh H. destruct w as [|pw|pw]; try lia. destruct h as [|ph|ph]; try lia.
  unfold Qle, Qdiv, Qmult, Qinv, inject_Z. cbn [Qnum Qden]. 
  rewrite !Pos2Z.inj_mul. lia.
Qed.

(** The exact size in integer arithmetic. *)
Lemma exact_size_Z (w h aw ah : Z) :
  0 < w -> 0 < h ->
  exact_size w h aw ah = (Z.min aw (w * ah / h), Z.min ah (h * aw / w)).
Proof.
  intros Hw Hh. unfold exact_size, exact_scale.
  destruct (Z_le_gt_dec (aw * h) (ah * w)) as [Hle|Hgt].
  - pose proof (Q.min_l _ _ (ratio_le aw w ah h Hw Hh Hle)) as E.
    rewrite !E, !Qfloor_scaled by assumption.
    assert (w * aw / w = aw) by (rewrite Z.mul_comm; apply Z.div_mul; lia).
    assert (aw <= w * ah / h) by (apply Z.div_le_lower_bound; lia).
    assert (h * aw / w <= ah) by (apply Z.div_le_upper_bound; lia).
    f_equal; lia.
  - pose proof (Q.min_r _ _ (ratio_le ah h aw w Hh Hw ltac:(lia))) as E.
    rewrite !E, !Qfloor_scaled by assumption.
    assert (h * ah / h = ah) by (rewrite Z.mul_comm; apply Z.div_mul; lia).
    assert (ah <= h * aw / w) by (apply Z.div_le_lower_bound; lia).
    assert (w * ah / h <= aw) by (apply Z.div_le_upper_bound; lia).
    f_equal; lia.
Qed.

Lemma near_ratio (v a b : R) :
  (0 < b)%R -> near v (a / b) ->
  (v * b <= a * (1 + ulp_bound) /\ a * (1 - ulp_bound) <= v * b)%R.
Proof.
  intros Hb [Hlo Hhi].
  assert (E : forall c, (a / b * c * b = a * c)%R) by (intros c; field; lra).
  split.
  - rewrite <- E. apply Rmult_le_compat_r; lra.
  - rewrite <- E. apply Rmult_le_compat_r; lra.
Qed.

(** What the two binary64 products truncate to. *)
Lemma float_size_bounds (w h aw ah : Z) :
  0 < w < 2 ^ 31 -> 0 < h < 2 ^ 31 -> 0 < aw < 2 ^ 31 -> 0 < ah < 2 ^ 31 ->
  exists nw nh,
    float_size w h aw ah = (Ok nw, Ok nh) /\
    (Z.min aw (w * ah / h) - 1 <= nw <= Z.min aw (w * ah / h) + 1 /\
     nw <= aw /\ (aw * h <= 2 ^ 50 -> nw <= Z.min aw (w * ah / h))) /\
    (Z.min ah (h * aw / w) - 1 <= nh <= Z.min ah (h * aw / w) + 1 /\
     nh <= ah /\ (ah * w <= 2 ^ 50 -> nh <= Z.min ah (h * aw / w))).
Proof.
  intros Hw Hh Haw Hah.
  assert (P53 : 2 ^ 31 < 2 ^ 53) by reflexivity.
  destruct (float_of_int_normal w) as [Nw Vw]; [lia|].
  destruct (float_of_int_normal h) as [Nh Vh]; [lia|].
  destruct (float_of_int_normal aw) as [Naw Vaw]; [lia|].
  destruct (float_of_int_normal ah) as [Nah Vah]; [lia|].
  destruct (div_near (float_of_int aw) (float_of_int w) 52 52 Naw Nw) as [Nsw Rsw]; [lia|].
  destruct (div_near (float_of_int ah) (float_of_int h) 52 52 Nah Nh) as [Nsh Rsh]; [lia|].
  rewrite Vaw, Vw in Rsw. rewrite Vah, Vh in Rsh.
  unfold float_size, int_times_float.
  set (sw := PrimFloat.div (float_of_int aw) (float_of_int w)) in *.
  set (sh := PrimFloat.div (float_of_int ah) (float_of_int h)) in *.
  destruct (min2_normal sw sh _ Nsw Nsh) as (Hs & Hsw & Hsh).
  set (s := min2 sw sh) in *.
  assert (Ns : normal (52 + 52 + 53) s) by (destruct Hs as [-> | ->]; assumption).
  assert (Rw : (0 < IZR w)%R) by (apply IZR_lt; lia).
  assert (Rh : (0 < IZR h)%R) by (apply IZR_lt; lia).
  destruct (near_ratio _ _ _ Rw Rsw) as [Uw Lw].
  destruct (near_ratio _ _ _ Rh Rsh) as [Uh Lh].
  assert (Sw : (B2R s * IZR w <= IZR aw * (1 + ulp_bound))%R).
  { apply Rle_trans with (B2R sw * IZR w)%R; [apply Rmult_le_compat_r; lra|assumption]. }
  assert (Sh : (B2R s * IZR h <= IZR ah * (1 + ulp_bound))%R).
  { apply Rle_trans with (B2R sh * IZR h)%R; [apply Rmult_le_compat_r; lra|assumption]. }
  assert (Slo : (IZR aw * (1 - ulp_bound) <= B2R s * IZR w \/
                 IZR ah * (1 - ulp_bound) <= B2R s * IZR h)%R)
    by (destruct Hs as [-> | ->]; auto).
  destruct (mul_near (float_of_int w) s 52 _ Nw Ns) as [Npw Rpw]; [lia|].
  destruct (mul_near (float_of_int h) s 52 _ Nh Ns) as [Nph Rph]; [lia|].
  rewrite Vw in Rpw. rewrite Vh in Rph.
  destruct (int_of_float_floor _ _ Npw) as (nw & Ew & Fw).
  destruct (int_of_float_floor _ _ Nph) as (nh & Eh & Fh).
  exists nw, nh. rewrite Ew, Eh. split; [reflexivity|]. split.
  - apply (scaled_floor w h aw ah nw (B2R s) _ Hw Hh Haw Hah Sw Sh Slo Rpw Fw).
  - apply (scaled_floor h w ah aw nh (B2R s)
             (B2R (PrimFloat.mul (float_of_int h) s)) Hh Hw Hah Haw Sh Sw);
      [tauto|assumption|assumption].
Qed.

(** The two scripts differ only in how they write twice the padding. *)
Lemma fit_to_canvas_same (img : image pixel) (target_width target_height padding : Z) :
  V1.fit_to_canvas img target_width target_height padding =
  V2.fit_to_canvas img target_width target_height padding.
Proof.
  unfold V1.fit_to_canvas, V2.fit_to_canvas.
  replace (padding * 2) with (2 * padding) by lia. reflexivity.
Qed.

(** [fit_to_canvas] once the two products are known. *)
Lemma fit_to_canvas_of_sizes (img : image pixel)
    (target_width target_height padding new_w new_h : Z) :
  0 < xsize img -> 0 < ysize img ->
  float_size (xsize img) (ysize img)
    (target_width - 2 * padding) (target_height - 2 * padding) = (Ok new_w, Ok new_h) ->
  V2.fit_to_canvas img target_width target_height padding =
  if (new_w <? 1) || (new_h <? 1) then Raise ValueError
  else if (target_width <? 0) || (target_height <? 0) then Raise ValueError
  else Ok (Placement (target_width, target_height) (new_w, new_h)
             ((target_width - new_w) / 2, (target_height - new_h) / 2)).
Proof.
  intros Hw Hh E. unfold float_size in E. injection E as E1 E2.
  unfold V2.fit_to_canvas, truediv.
  replace (xsize img =? 0) with false by (symmetry; apply Z.eqb_neq; lia).
  replace (ysize img =? 0) with false by (symmetry; apply Z.eqb_neq; lia).
  cbn [bind]. rewrite E1, E2. reflexivity.
Qed.

(** C4, as the code has it.  For a buffer of positive dimensions, a padding
    of at least 0 and less than half of either target dimension, and sizes
    PIL can hold, both scripts compute the same result.  When they return a
    canvas, it has exactly the target size; the content is resampled to a
    width and a height of at least 1 that do not exceed the available area
    and are each within 1 of the exact floors [floor (w * s)] and
    [floor (h * s)], for [s] the smaller of the two exact ratios (for
    moderate sizes: the floor or one less); it is pasted at the floor of
    half the remaining width and height, at least the padding away from
    every side, so the paste clips nothing.  Otherwise the resize raises
    [ValueError], which it does only when an exact floor is at most 1 and,
    for moderate sizes, whenever an exact floor is below 1. *)
Theorem fit_to_canvas_centres_scaled_content
    (img : image pixel) (target_width target_height padding : Z) :
  0 < xsize img -> 0 < ysize img ->
  pil_sizes img target_width target_height ->
  0 <= padding -> 2 * padding < target_width -> 2 * padding < target_height ->
  let avail_w := target_width - 2 * padding in
  let avail_h := target_height - 2 * padding in
  let floors := exact_size (xsize img) (ysize img) avail_w avail_h in
  V1.fit_to_canvas img target_width target_height padding =
  V2.fit_to_canvas img target_width target_height padding /\
  match V2.fit_to_canvas img target_width target_height padding with
  | Ok pl =>
      let new_w := fst (resized_size pl) in
      let new_h := snd (resized_size pl) in
      canvas_size pl = (target_width, target_height) /\
      1 <= new_w <= avail_w /\ 1 <= new_h <= avail_h /\
      fst floors - 1 <= new_w <= fst floors + 1 /\
      snd floors - 1 <= new_h <= snd floors + 1 /\
      (moderate_sizes img target_width target_height ->
       new_w <= fst floors /\ new_h <= snd floors) /\
      paste_at pl = ((target_width - new_w) / 2, (target_height - new_h) / 2) /\
      padding <= fst (paste_at pl) /\
      fst (paste_at pl) + new_w <= target_width - padding /\
      padding <= snd (paste_at pl) /\
      snd (paste_at pl) + new_h <= target_height - padding /\
      pasted_whole pl
  | Raise e =>
      e = ValueError /\ (fst floors <= 1 \/ snd floors <= 1)
  end /\
  (moderate_sizes img target_width target_height ->
   fst floors < 1 \/ snd floors < 1 ->
   V2.fit_to_canvas img target_width target_height padding = Raise ValueError).
Proof.
  intros Hw Hh (Px & Py & Ptw & Pth) Hp Htw Hth avail_w avail_h floors.
  destruct (float_size_bounds (xsize img) (ysize img) avail_w avail_h)
    as (nw & nh & Efs & (Bw & Fw & Tw) & (Bh & Fh & Th));
    [lia|lia|subst avail_w; lia|subst avail_h; lia|].
  pose proof (fit_to_canvas_of_sizes img target_width target_height padding
                nw nh Hw Hh Efs) as Efit.
  subst floors. rewrite exact_size_Z by assumption. cbn [fst snd].
  set (fw := Z.min avail_w (xsize img * avail_h / ysize img)) in *.
  set (fh := Z.min avail_h (ysize img * avail_w / xsize img)) in *.
  assert (Hmod : moderate_sizes img target_width target_height ->
                 nw <= fw /\ nh <= fh).
  { intros (Mx & My & Mtw & Mth).
    assert (P25 : 2 ^ 50 = 2 ^ 25 * 2 ^ 25) by reflexivity.
    assert (0 < 2 ^ 25) by reflexivity.
    split; [apply Tw|apply Th]; rewrite P25;
      apply Z.lt_le_incl, Z.mul_lt_mono_nonneg; subst avail_w avail_h; lia. }
  split; [apply fit_to_canvas_same|].
  rewrite Efit.
  replace ((target_width <? 0) || (target_height <? 0)) with false
    by (symmetry; apply orb_false_iff; split; apply Z.ltb_ge; lia).
  split.
  - destruct ((nw <? 1) || (nh <? 1)) eqn:Esmall.
    + split; [reflexivity|].
      apply orb_true_iff in Esmall. destruct Esmall as [E|E]; apply Z.ltb_lt in E; lia.
    + apply orb_false_iff in Esmall. destruct Esmall as [E1 E2].
      apply Z.ltb_ge in E1, E2.
      cbn [canvas_size resized_size paste_at fst snd]. unfold pasted_whole.
      cbn [canvas_size resized_size paste_at fst snd].
      subst avail_w avail_h. clear Efit Efs Tw Th.
      repeat match goal with |- _ /\ _ => split end;
        try reflexivity; try lia; try exact Hmod;
        Z.div_mod_to_equations; lia.
  - intros Hm Hsmall. destruct (Hmod Hm) as [Mw Mh].
    replace ((nw <? 1) || (nh <? 1)) with true; [reflexivity|].
    symmetry. apply orb_true_iff.
    destruct Hsmall; [left|right]; apply Z.ltb_lt; lia.
Qed.

Lemma fit_to_canvas_centres_scaled_content_witness :
  (0 < xsize short_bar /\ 0 < ysize short_bar /\
   pil_sizes short_bar 81 81 /\ 0 <= 10 /\ 2 * 10 < 81 /\ 2 * 10 < 81) /\
  let avail_w := 81 - 2 * 10 in
  let avail_h := 81 - 2 * 10 in
  let floors := exact_size (xsize short_bar) (ysize short_bar) avail_w avail_h in
  V1.fit_to_canvas short_bar 81 81 10 = V2.fit_to_canvas short_bar 81 81 10 /\
  match V2.fit_to_canvas short_bar 81 81 10 with
  | Ok pl =>
      let new_w := fst (resized_size pl) in
      let new_h := snd (resized_size pl) in
      canvas_size pl = (81, 81) /\
      1 <= new_w <= avail_w /\ 1 <= new_h <= avail_h /\
      fst floors - 1 <= new_w <= fst floors + 1 /\
      snd floors - 1 <= new_h <= snd floors + 1 /\
      (moderate_sizes short_bar 81 81 ->
       new_w <= fst floors /\ new_h <= snd floors) /\
      paste_at pl = ((81 - new_w) / 2, (81 - new_h) / 2) /\
      10 <= fst (paste_at pl) /\
      fst (paste_at pl) + new_w <= 81 - 10 /\
      10 <= snd (paste_at pl) /\
      snd (paste_at pl) + new_h <= 81 - 10 /\
      pasted_whole pl
  | Raise e =>
      e = ValueError /\ (fst floors <= 1 \/ snd floors <= 1)
  end /\
  (moderate_sizes short_bar 81 81 ->
   fst floors < 1 \/ snd floors < 1 ->
   V2.fit_to_canvas short_bar 81 81 10 = Raise ValueError).
Proof.
  assert (Hpil : pil_sizes short_bar 81 81)
    by (unfold pil_sizes, xsize, ysize; simpl; lia).
  split.
  { split; [in_bounds|]. split; [in_bounds|]. split; [exact Hpil|]. lia. }
  apply (fit_to_canvas_centres_scaled_content short_bar 81 81 10);
    try exact Hpil; try in_bounds; lia.
Defined.

(** C4 as the specification words it fails.  A 1x1000 buffer on a 120x120
    canvas with padding 10 scales to width 0, which the resize refuses: no
    canvas is returned.  A 7x1 buffer on an 81x81 canvas with padding 10
    has the exact width floor (7 * (61 / 7)) = 61, but the binary64 product
    is just below 61 and truncates to 60.  A 10x10 buffer on a 100x100
    canvas with padding -10 is resampled to 120x120 and pasted at
    (-10, -10), so the paste clips it. *)
Lemma fit_to_canvas_fails_or_falls_short :
  (0 < xsize thin_strip /\ 0 < ysize thin_strip /\ 2 * 10 < 120 /\
   V1.fit_to_canvas thin_strip 120 120 10 = Raise ValueError /\
   V2.fit_to_canvas thin_strip 120 120 10 = Raise ValueError) /\
  (0 < xsize short_bar /\ 0 < ysize short_bar /\ 2 * 10 < 81 /\
   exact_size (xsize short_bar) (ysize short_bar) (81 - 2 * 10) (81 - 2 * 10) = (61, 8) /\
   V1.fit_to_canvas short_bar 81 81 10 = Ok (Placement (81, 81) (60, 8) (10, 36)) /\
   V2.fit_to_canvas short_bar 81 81 10 = Ok (Placement (81, 81) (60, 8) (10, 36))) /\
  (0 < xsize (flat_tile white) /\ 0 < ysize (flat_tile white) /\ 2 * -10 < 100 /\
   V1.fit_to_canvas (flat_tile white) 100 100 (-10) =
     Ok (Placement (100, 100) (120, 120) (-10, -10)) /\
   V2.fit_to_canvas (flat_tile white) 100 100 (-10) =
     Ok (Placement (100, 100) (120, 120) (-10, -10)) /\
   ~ pasted_whole (Placement (100, 100) (120, 120) (-10, -10))).
Proof.
  split; [|split].
  - split; [in_bounds|]. split; [in_bounds|]. split; [lia|].
    split; vm_compute; reflexivity.
  - split; [in_bounds|]. split; [in_bounds|]. split; [lia|].
    split; [vm_compute; reflexivity|]. split; vm_compute; reflexivity.
  - split; [in_bounds|]. split; [in_bounds|]. split; [lia|].
    split; [vm_compute; reflexivity|]. split; [vm_compute; reflexivity|].
    unfold pasted_whole. simpl. lia.
Qed.

(** * The scenario of the specification, end to end *)

Lemma second_fill_returns_first (img : image pixel) (bg_color : color)
    (tolerance : Z) (mask : grid Z) :
  V1.flood_fill_background img bg_color tolerance = Some mask ->
  V2.flood_fill_background img bg_color tolerance =
  Some (Image (width img) (height img) mask).
Proof.
  destruct (fills_end img bg_color tolerance)
    as (st1 & st2 & Hd1 & Hd2 & _ & _ & _ & Hm).
  unfold V1.flood_fill_background, V2.flood_fill_background.
  rewrite Hd1, Hd2. cbn [option_map]. intros [= <-].
  destruct Hm as [Hmw Hmh Hma _ _]. destruct (V2.alpha st2) as [w h d].
  cbn [width height data] in *. now subst.
Qed.

Lemma square_sheet_fill :
  V1.flood_fill_background square_sheet white_bg 10 = Some square_mask.
Proof. vm_compute. reflexivity. Qed.

Lemma square_sheet_masked :
  V1.apply_alpha_mask square_sheet square_mask = Ok square_masked /\
  V2.apply_alpha_mask square_sheet (Image 100 100 square_mask) = Ok square_masked.
Proof. split; vm_compute; reflexivity. Qed.

Lemma square_masked_cropped :
  getbbox square_masked = Some (30, 30, 70, 70) /\
  V1.crop_to_content square_masked 2 = Ok square_cropped.
Proof. split; vm_compute; reflexivity. Qed.

Lemma square_sheet_cell :
  bind (floordiv (xsize square_sheet) 1) (fun cell_w =>
  bind (floordiv (ysize square_sheet) 1) (fun cell_h =>
  crop square_sheet
    (0 * cell_w + 0, 0 * cell_h + 0, 0 * cell_w + cell_w - 0, 0 * cell_h + cell_h - 0)))
  = Ok square_sheet.
Proof. vm_compute. reflexivity. Qed.

(** C7.  The 100x100 white sheet with a black square on rows and columns
    30 to 69, background white, tolerance 10: the mask of either script is
    255 on the square and 0 elsewhere; the crop with padding 2 is 44x44;
    the fit onto a 200x200 canvas with padding 10 resamples it to 180x180
    and pastes it at (10, 10). *)
Theorem square_on_white_end_to_end :
  V1.get_background_color square_sheet = Ok white_bg /\
  V1.flood_fill_background square_sheet white_bg 10 = Some square_mask /\
  V2.flood_fill_background square_sheet white_bg 10 = Some (Image 100 100 square_mask) /\
  (forall x y, 0 <= x < 100 -> 0 <= y < 100 ->
     grid_get 255 square_mask x y = if in_square x y then 255 else 0) /\
  V1.apply_alpha_mask square_sheet square_mask = Ok square_masked /\
  V2.apply_alpha_mask square_sheet (Image 100 100 square_mask) = Ok square_masked /\
  getbbox square_masked = Some (30, 30, 70, 70) /\
  V1.crop_to_content square_masked 2 = Ok square_cropped /\
  V2.crop_to_content square_masked 2 = Ok square_cropped /\
  V1.extract_keyboard_with_transparency square_sheet white_bg 10 =
    Some (Ok square_cropped) /\
  (width square_cropped, height square_cropped) = (44%nat, 44%nat) /\
  V1.fit_to_canvas square_cropped 200 200 10 =
    Ok (Placement (200, 200) (180, 180) (10, 10)) /\
  V2.fit_to_canvas square_cropped 200 200 10 =
    Ok (Placement (200, 200) (180, 180) (10, 10)) /\
  V2.extract_keyboard square_sheet 0 0 1 1 (0, 0, 0, 0) 10 =
    Some (Ok (Placement (400, 140) (128, 128) (136, 6))).
Proof.
  pose proof square_sheet_fill as Hfill.
  pose proof (second_fill_returns_first _ _ _ _ Hfill) as Hfill2.
  change (Image (width square_sheet) (height square_sheet) square_mask)
    with (Image 100 100 square_mask) in Hfill2.
  destruct square_sheet_masked as [Hmask1 Hmask2].
  destruct square_masked_cropped as [Hbox Hcrop].
  split; [vm_compute; reflexivity|]. split; [exact Hfill|]. split; [exact Hfill2|].
  split.
  { intros x y Hx Hy.
    apply (grid_get_tabulate 255 (fun x y => if in_square x y then 255 else 0)
             100 100); assumption. }
  split; [exact Hmask1|]. split; [exact Hmask2|]. split; [exact Hbox|].
  split; [exact Hcrop|]. split; [exact Hcrop|].
  split.
  { unfold V1.extract_keyboard_with_transparency. rewrite Hfill. cbn [option_map].
    rewrite Hmask1. cbn [bind]. rewrite Hcrop. reflexivity. }
  split; [reflexivity|]. split; [vm_compute; reflexivity|].
  split; [vm_compute; reflexivity|].
  unfold V2.extract_keyboard. rewrite square_sheet_cell.
  replace (V2.get_background_color square_sheet) with (Ok white_bg : result color)
    by (vm_compute; reflexivity).
  rewrite Hfill2. cbn [option_map]. rewrite Hmask2. cbn [bind].
  change (V2.crop_to_content square_masked 2) with (V1.crop_to_content square_masked 2).
  rewrite Hcrop. vm_compute. reflexivity.
Qed.

(** * Further properties of the scripts *)















(** ** The fit without room *)

Module Signs.
Import SpecFloat.







End Signs.





